(** * remark-code-import: the reference parser, the containment check and
      the line extractor of [src/index.ts], embedded and verified.

    JavaScript strings are sequences of UTF-16 code units; they are modelled
    as lists of code units, a code unit being a natural number in [N].
    JavaScript numbers that the program manipulates are line numbers and
    array lengths: they are modelled as integers in [Z].  ([parseInt] rounds
    a digit string above 2^53 to the nearest double; such a value is only
    ever handed to [Array.prototype.slice], which clamps it to the array
    length exactly as it clamps the unrounded integer.)

    The program is read on a POSIX host: [os.EOL] is the line feed and
    [path.sep] is the slash. *)

From Stdlib Require Import Ascii String.
From Stdlib Require Import List NArith ZArith Bool Lia.
Import ListNotations.

(** ** JavaScript strings *)

Module Js.

Definition code_unit := N.
Definition jsstring := list code_unit.

Definition unit_of (a : ascii) : code_unit := N_of_ascii a.

(** The string literal [s], as a sequence of code units. *)
Definition str (s : string) : jsstring := map unit_of (list_ascii_of_string s).

Fixpoint eqb (s t : jsstring) : bool :=
  match s, t with
  | [], [] => true
  | c :: s', d :: t' => N.eqb c d && eqb s' t'
  | _, _ => false
  end.

(** [String.prototype.startsWith]. *)
Fixpoint startsWith (s pre : jsstring) {struct pre} : bool :=
  match pre, s with
  | [], _ => true
  | p :: pre', c :: s' => N.eqb c p && startsWith s' pre'
  | _ :: _, [] => false
  end.

Definition cons_head (c : code_unit) (l : list jsstring) : list jsstring :=
  match l with
  | [] => [[c]]
  | x :: xs => (c :: x) :: xs
  end.

(** [String.prototype.split] with a non-empty string separator: [skip] counts
    the code units of a separator occurrence still to be passed over. *)
Fixpoint split_go (sep : jsstring) (skip : nat) (s : jsstring) : list jsstring :=
  match s with
  | [] => [[]]
  | c :: s' =>
      match skip with
      | S k => split_go sep k s'
      | O =>
          if startsWith s sep
          then [] :: split_go sep (length sep - 1) s'
          else cons_head c (split_go sep 0 s')
      end
  end.

Definition split (sep s : jsstring) : list jsstring := split_go sep 0 s.

(** [Array.prototype.join]. *)
Fixpoint join (sep : jsstring) (l : list jsstring) : jsstring :=
  match l with
  | [] => []
  | [x] => x
  | x :: xs => x ++ sep ++ join sep xs
  end.

(** [Array.prototype.slice] with two integer arguments: negative indices
    count from the end, and both bounds are clamped to the length. *)
Definition slice {A} (s e : Z) (l : list A) : list A :=
  let len := Z.of_nat (length l) in
  let k := if (s <? 0)%Z then Z.max (len + s) 0 else Z.min s len in
  let f := if (e <? 0)%Z then Z.max (len + e) 0 else Z.min e len in
  firstn (Z.to_nat (Z.max (f - k) 0)) (skipn (Z.to_nat k) l).

(** The decimal digits, as [\d] sees them. *)
Definition is_digit (c : code_unit) : bool := (48 <=? c)%N && (c <=? 57)%N.

(** What [.] matches without the [s] flag: any code unit that is not a line
    terminator (LF, CR, U+2028, U+2029). *)
Definition is_dot (c : code_unit) : bool :=
  negb (N.eqb c 10 || N.eqb c 13 || N.eqb c 8232 || N.eqb c 8233).

(** [parseInt(s, 10)] on a string of decimal digits. *)
Definition parseInt (s : jsstring) : Z :=
  fold_left (fun acc c => (acc * 10 + (Z.of_N c - 48))%Z) s 0%Z.

End Js.

Import Js.

(** ** A backtracking matcher for the regular-expression constructs in use *)

Module Regex.

(** The named groups of the reference pattern. *)
Inductive gname := Gpath | Gfrom | Gdash | Gto.

(** [res.groups]: a group that took no part in the match is [undefined]. *)
Record groups := mkGroups {
  g_path : option jsstring;
  g_from : option jsstring;
  g_dash : option jsstring;
  g_to : option jsstring
}.

Definition no_groups : groups := mkGroups None None None None.

Definition set_group (n : gname) (v : jsstring) (g : groups) : groups :=
  match n with
  | Gpath => mkGroups (Some v) (g_from g) (g_dash g) (g_to g)
  | Gfrom => mkGroups (g_path g) (Some v) (g_dash g) (g_to g)
  | Gdash => mkGroups (g_path g) (g_from g) (Some v) (g_to g)
  | Gto => mkGroups (g_path g) (g_from g) (g_dash g) (Some v)
  end.

Inductive regex :=
| Bol                                       (* ^ *)
| Eol                                       (* $ *)
| Lit (c : code_unit)                       (* a literal character *)
| PlusLazy (cls : code_unit -> bool)        (* X+? for a character class X *)
| PlusGreedy (cls : code_unit -> bool)      (* X+ *)
| Opt (r : regex)                           (* (?:r)? *)
| Seq (r1 r2 : regex)                       (* r1r2 *)
| Named (n : gname) (r : regex).            (* (?<n>r) *)

(** A continuation receives the position reached, the input that is left and
    the groups captured so far. *)
Definition cont := nat -> jsstring -> groups -> option groups.

Fixpoint lazy_plus (cls : code_unit -> bool) (pos : nat) (s : jsstring)
    (g : groups) (k : cont) : option groups :=
  match s with
  | c :: s' =>
      if cls c then
        match k (S pos) s' g with
        | Some r => Some r
        | None => lazy_plus cls (S pos) s' g k
        end
      else None
  | [] => None
  end.

Fixpoint greedy_plus (cls : code_unit -> bool) (pos : nat) (s : jsstring)
    (g : groups) (k : cont) : option groups :=
  match s with
  | c :: s' =>
      if cls c then
        match greedy_plus cls (S pos) s' g k with
        | Some r => Some r
        | None => k (S pos) s' g
        end
      else None
  | [] => None
  end.

(** Backtracking in the order ECMAScript prescribes: a greedy quantifier
    tries the longer match first, a lazy one the shorter; giving up an
    optional part restores the groups to what they were before it. *)
Fixpoint rmatch (r : regex) (pos : nat) (s : jsstring) (g : groups) (k : cont)
    : option groups :=
  match r with
  | Bol => if Nat.eqb pos 0 then k pos s g else None
  | Eol => match s with [] => k pos s g | _ :: _ => None end
  | Lit c =>
      match s with
      | x :: s' => if N.eqb x c then k (S pos) s' g else None
      | [] => None
      end
  | PlusLazy cls => lazy_plus cls pos s g k
  | PlusGreedy cls => greedy_plus cls pos s g k
  | Opt a =>
      match rmatch a pos s g k with
      | Some res => Some res
      | None => k pos s g
      end
  | Seq a b => rmatch a pos s g (fun p s' g' => rmatch b p s' g' k)
  | Named n a =>
      rmatch a pos s g (fun p s' g' => k p s' (set_group n (firstn (p - pos) s) g'))
  end.

Definition k_done : cont := fun _ _ g => Some g.

(** [RegExp.prototype.exec] without the [g] and [y] flags: the first start
    index at which the pattern matches. *)
Fixpoint exec_from (r : regex) (pos : nat) (s : jsstring) : option groups :=
  match rmatch r pos s no_groups k_done with
  | Some g => Some g
  | None =>
      match s with
      | [] => None
      | _ :: s' => exec_from r (S pos) s'
      end
  end.

Definition exec (r : regex) (s : jsstring) : option groups := exec_from r 0 s.

Fixpoint lits (s : jsstring) (r : regex) : regex :=
  match s with
  | [] => r
  | c :: s' => Seq (Lit c) (lits s' r)
  end.

End Regex.

Import Regex.

(** ** [src/index.ts] *)

Definition ch (a : ascii) : code_unit := unit_of a.
Arguments ch : simpl never.

(** The pattern of line 69:
    [/^file=(?<path>.+?)(?:(?:#(?:L(?<from>\d+)(?<dash>-)?)?)(?:L(?<to>\d+))?)?$/] *)
Definition fileMeta_re : regex :=
  Seq Bol
   (lits (str "file=")
     (Seq (Named Gpath (PlusLazy is_dot))
       (Seq
         (Opt
           (Seq
             (Seq (Lit (ch "#"))
                  (Opt (Seq (Lit (ch "L"))
                         (Seq (Named Gfrom (PlusGreedy is_digit))
                              (Opt (Named Gdash (Lit (ch "-"))))))))
             (Opt (Seq (Lit (ch "L")) (Named Gto (PlusGreedy is_digit))))))
         Eol))).

(** *** The Node and npm library functions the program calls

    These are not code of the repository; they are written from the
    documented behaviour of Node's POSIX [path] module and of the
    [strip-indent] package. *)

Module Path.

Definition sep : jsstring := str "/".

(** [path.isAbsolute]. *)
Definition isAbsolute (p : jsstring) : bool :=
  match p with
  | c :: _ => N.eqb c (ch "/")
  | [] => false
  end.

(** Node's [normalizeString] on the segments of a path: empty and [.]
    segments are dropped, [..] removes the segment before it, and above the
    top it is kept only when the path is relative. [acc] is in reverse. *)
Fixpoint normalize_segs (allowAboveRoot : bool) (acc segs : list jsstring)
    : list jsstring :=
  match segs with
  | [] => rev acc
  | x :: xs =>
      if Js.eqb x [] || Js.eqb x (str ".") then normalize_segs allowAboveRoot acc xs
      else if Js.eqb x (str "..") then
        match acc with
        | y :: acc' =>
            if Js.eqb y (str "..")
            then normalize_segs allowAboveRoot (x :: acc) xs
            else normalize_segs allowAboveRoot acc' xs
        | [] =>
            if allowAboveRoot
            then normalize_segs allowAboveRoot [x] xs
            else normalize_segs allowAboveRoot [] xs
        end
      else normalize_segs allowAboveRoot (x :: acc) xs
  end.

(** The right-to-left accumulation of [path.resolve]: arguments are
    prepended until an absolute one has been taken; the working directory
    comes last. *)
Fixpoint resolve_acc (rev_args : list jsstring) (acc : jsstring) : jsstring * bool :=
  match rev_args with
  | [] => (acc, false)
  | p :: rest =>
      match p with
      | [] => resolve_acc rest acc
      | c :: _ =>
          let acc' := p ++ str "/" ++ acc in
          if N.eqb c (ch "/") then (acc', true) else resolve_acc rest acc'
      end
  end.

(** The segments of [path.resolve(...args)] and whether it is absolute. *)
Definition resolve_segs (cwd : jsstring) (args : list jsstring)
    : list jsstring * bool :=
  let '(p, absolute) := resolve_acc (rev (cwd :: args)) [] in
  (normalize_segs (negb absolute) [] (split sep p), absolute).

(** [path.resolve]. *)
Definition resolve (cwd : jsstring) (args : list jsstring) : jsstring :=
  let '(segs, absolute) := resolve_segs cwd args in
  if absolute then str "/" ++ join sep segs
  else match segs with [] => str "." | _ :: _ => join sep segs end.

Fixpoint strip_common (a b : list jsstring) : list jsstring * list jsstring :=
  match a, b with
  | x :: a', y :: b' => if Js.eqb x y then strip_common a' b' else (a, b)
  | _, _ => (a, b)
  end.

(** [path.relative]: both paths are resolved, their common leading segments
    dropped, and every segment left of [from] becomes a [..]. *)
Definition relative (cwd from to : jsstring) : jsstring :=
  if Js.eqb from to then []
  else
    let '(up, down) :=
      strip_common (fst (resolve_segs cwd [from])) (fst (resolve_segs cwd [to])) in
    join sep (map (fun _ => str "..") up ++ down).

End Path.

Module StripIndent.

Definition is_line_terminator (c : code_unit) : bool :=
  N.eqb c 10 || N.eqb c 13 || N.eqb c 8232 || N.eqb c 8233.

(** The class [[ \t]]. *)
Definition is_blank (c : code_unit) : bool := N.eqb c 32 || N.eqb c 9.

(** The class [\s]. *)
Definition is_space (c : code_unit) : bool :=
  ((9 <=? c) && (c <=? 13) || N.eqb c 32 || N.eqb c 160 || N.eqb c 5760
   || (8192 <=? c) && (c <=? 8202) || N.eqb c 8232 || N.eqb c 8233
   || N.eqb c 8239 || N.eqb c 8287 || N.eqb c 12288 || N.eqb c 65279)%N.

Fixpoint leading_blanks (s : jsstring) : nat :=
  match s with
  | c :: s' => if is_blank c then S (leading_blanks s') else 0
  | [] => 0
  end.

(** Whether [/^[ \t]*(?=\S)/] matches at a line start [s]. *)
Definition indented_text (s : jsstring) : bool :=
  match skipn (leading_blanks s) s with
  | c :: _ => negb (is_space c)
  | [] => false
  end.

(** The lengths of the matches of [/^[ \t]*(?=\S)/gm]. *)
Fixpoint indents (bol : bool) (s : jsstring) : list nat :=
  match s with
  | [] => []
  | c :: s' =>
      (if bol && indented_text s then [leading_blanks s] else [])
        ++ indents (is_line_terminator c) s'
  end.

(** The [min-indent] package. *)
Definition minIndent (s : jsstring) : nat :=
  match indents true s with
  | [] => 0
  | x :: xs => fold_left Nat.min xs x
  end.

(** Removing the matches of [/^[ \t]{n}/gm]; [drop] counts what is left to
    remove of the current match. *)
Fixpoint strip_go (n drop : nat) (bol : bool) (s : jsstring) : jsstring :=
  match s with
  | [] => []
  | c :: s' =>
      match drop with
      | S d => strip_go n d false s'
      | O =>
          if bol && (n <=? leading_blanks s)%nat
          then strip_go n (n - 1) false s'
          else c :: strip_go n 0 (is_line_terminator c) s'
      end
  end.

(** The [strip-indent] package. *)
Definition stripIndent (s : jsstring) : jsstring :=
  let indent := minIndent s in
  if Nat.eqb indent 0 then s else strip_go indent 0 true s.

End StripIndent.

(** *** The program *)

Definition EOL : jsstring := str (String "010" EmptyString).
Definition LF : jsstring := str (String "010" EmptyString).

Record CodeImportOptions := mkOptions {
  preserveTrailingNewline : bool;
  removeRedundantIndentations : bool;
  rootDir : option jsstring;
  allowImportingFromOutside : bool
}.

(** [fromLine || 1]: an absent line and line 0 both stand for line 1. *)
Definition start_line (fromLine : option Z) : Z :=
  match fromLine with
  | Some n => if (n =? 0)%Z then 1%Z else n
  | None => 1%Z
  end.

(** The truth value of an optional number. *)
Definition truthy_num (n : option Z) : bool :=
  match n with
  | Some n => negb (n =? 0)%Z
  | None => false
  end.

Definition end_line (lines : list jsstring) (start : Z) (hasDash : bool)
    (toLine : option Z) (preserveTrailingNewline : bool) : Z :=
  if negb hasDash then start
  else if truthy_num toLine then match toLine with Some t => t | None => 0%Z end
  else if Js.eqb (last lines []) [] && negb preserveTrailingNewline
       then (Z.of_nat (length lines) - 1)%Z
  else Z.of_nat (length lines).

Definition extractLines (content : jsstring) (fromLine : option Z)
    (hasDash : bool) (toLine : option Z) (preserveTrailingNewline : bool)
    : jsstring :=
  let lines := split EOL content in
  let start := start_line fromLine in
  let end_ := end_line lines start hasDash toLine preserveTrailingNewline in
  join LF (slice (start - 1) end_ lines).

(** What the program throws; each constructor carries what the message of
    the corresponding [Error] interpolates. *)
Inductive error :=
| RootDirNotAbsolute                               (* "rootDir" has to be an absolute path *)
| NotVFile                                         (* "file" should be an instance of VFile *)
| UnableToParse (fileMeta : jsstring)              (* Unable to parse file path ... *)
| OutsideRootDir (fileAbsPath rootDir : jsstring)  (* Attempted to import code from ... *)
| ReadFileFailed (fileAbsPath : jsstring).         (* the rejection of fsp.readFile *)

Inductive result (A : Type) :=
| Ok (a : A)
| Throw (e : error).
Arguments Ok {A} a.
Arguments Throw {A} e.

Definition bind {A B} (r : result A) (f : A -> result B) : result B :=
  match r with
  | Ok a => f a
  | Throw e => Throw e
  end.

Notation "x <- r ;; k" := (bind r (fun x => k))
  (at level 61, r at next level, right associativity).

(** [meta.split(/(?<!\\) /g)]: a cut at every space that no backslash
    precedes; [prev] is the code unit just before [s]. *)
Fixpoint split_meta_go (prev : option code_unit) (s : jsstring) : list jsstring :=
  match s with
  | [] => [[]]
  | c :: s' =>
      let escaped :=
        match prev with
        | Some b => N.eqb b (ch "\")
        | None => false
        end in
      if N.eqb c (ch " ") && negb escaped
      then [] :: split_meta_go (Some c) s'
      else cons_head c (split_meta_go (Some c) s')
  end.

Definition split_meta (meta : jsstring) : list jsstring := split_meta_go None meta.

(** Lines 55 to 58: the first token of the metadata that starts with
    [file=]; an absent [meta] counts as the empty string. *)
Definition find_fileMeta (meta : option jsstring) : option jsstring :=
  find (fun m => startsWith m (str "file="))
       (split_meta (match meta with Some m => m | None => [] end)).

(** A captured group is used when it is neither [undefined] nor empty. *)
Definition truthy_str (s : option jsstring) : bool :=
  match s with
  | Some (_ :: _) => true
  | _ => false
  end.

Definition parse_group (s : option jsstring) : option Z :=
  match s with
  | Some (c :: d) => Some (parseInt (c :: d))
  | _ => None
  end.

Record reference := mkReference {
  filePath : jsstring;
  fromLine : option Z;
  hasDash : bool;
  toLine : option Z
}.

(** Lines 68 to 80. *)
Definition parse_reference (fileMeta : jsstring) : result reference :=
  match exec fileMeta_re fileMeta with
  | None => Throw (UnableToParse fileMeta)
  | Some g =>
      match g_path g with
      | Some (c :: p) =>
          let fromLine := parse_group (g_from g) in
          let hasDash :=
            truthy_str (g_dash g)
            || match fromLine with None => true | Some _ => false end in
          let toLine := parse_group (g_to g) in
          Ok (mkReference (c :: p) fromLine hasDash toLine)
      | _ => Throw (UnableToParse fileMeta)
      end
  end.

(** The expansion of [$]-patterns in a replacement string, for a pattern
    without groups that matched [matched] at the start of the input, in
    front of [after]. *)
Fixpoint substitution (matched after repl : jsstring) : jsstring :=
  match repl with
  | [] => []
  | c :: r =>
      if N.eqb c (ch "$") then
        match r with
        | d :: r' =>
            if N.eqb d (ch "$") then ch "$" :: substitution matched after r'
            else if N.eqb d (ch "&") then matched ++ substitution matched after r'
            else if N.eqb d (ch "`") then substitution matched after r'
            else if N.eqb d (ch "'") then after ++ substitution matched after r'
            else c :: substitution matched after r
        | [] => [c]
        end
      else c :: substitution matched after r
  end.

(** [filePath.replace(/^<rootDir>/, rootDir)]. *)
Definition replace_rootDir (filePath rootDir : jsstring) : jsstring :=
  let token := str "<rootDir>" in
  if startsWith filePath token
  then
    let after := skipn (length token) filePath in
    substitution token after rootDir ++ after
  else filePath.

(** [.replace(/\\ /g, ' ')]. *)
Fixpoint unescape_spaces (s : jsstring) : jsstring :=
  match s with
  | [] => []
  | c :: s' =>
      match s' with
      | d :: s'' =>
          if N.eqb c (ch "\") && N.eqb d (ch " ")
          then ch " " :: unescape_spaces s''
          else c :: unescape_spaces s'
      | [] => [c]
      end
  end.

(** Lines 86 to 97: whether the import is refused. *)
Definition outside_rootDir (cwd rootDir fileAbsPath : jsstring) : bool :=
  let relativePathFromRootDir := Path.relative cwd rootDir fileAbsPath in
  Js.eqb rootDir []
  || startsWith relativePathFromRootDir (str ".." ++ Path.sep)
  || Path.isAbsolute relativePathFromRootDir.

Definition check_rootDir (allowOutside : bool) (cwd rootDir fileAbsPath : jsstring)
    : result jsstring :=
  if negb allowOutside && outside_rootDir cwd rootDir fileAbsPath
  then Throw (OutsideRootDir fileAbsPath rootDir)
  else Ok fileAbsPath.

(** An mdast [code] node; [data] stands for the fields the program never
    names (position and the like). *)
Record Code := mkCode {
  lang : option jsstring;
  meta : option jsstring;
  value : jsstring;
  data : jsstring
}.

Definition set_value (node : Code) (v : jsstring) : Code :=
  mkCode (lang node) (meta node) v (data node).

(** The world around a run: the working directory, the directory of the
    document ([file.dirname]) and the files that can be read. *)
Record world := mkWorld {
  cwd : jsstring;
  dirname : option jsstring;
  readFile : jsstring -> option jsstring
}.

(** What one iteration of the loop of line 54 hands to its promise. *)
Record import := mkImport {
  fileAbsPath : jsstring;
  imp_fromLine : option Z;
  imp_hasDash : bool;
  imp_toLine : option Z
}.

Section Transformer.

Variable options : CodeImportOptions.
Variable w : world.

(** Line 40. *)
Definition the_rootDir : jsstring :=
  match rootDir options with
  | Some (c :: r) => c :: r
  | _ => cwd w
  end.

(** Lines 55 to 97: the synchronous part of one iteration; [None] is the
    [continue] of line 61. *)
Definition prepare (node : Code) : result (option import) :=
  match find_fileMeta (meta node) with
  | None => Ok None
  | Some fileMeta =>
      if negb (truthy_str (dirname w)) then Throw NotVFile
      else
        let dir := match dirname w with Some d => d | None => [] end in
        ref <- parse_reference fileMeta ;;
        let normalizedFilePath :=
          unescape_spaces (replace_rootDir (filePath ref) the_rootDir) in
        let abs := Path.resolve (cwd w) [dir; normalizedFilePath] in
        abs' <- check_rootDir (allowImportingFromOutside options) (cwd w)
                  the_rootDir abs ;;
        Ok (Some (mkImport abs' (fromLine ref) (hasDash ref) (toLine ref)))
  end.

(** Lines 100 to 113: the body of the promise. *)
Definition run (node : Code) (i : import) : result Code :=
  match readFile w (fileAbsPath i) with
  | None => Throw (ReadFileFailed (fileAbsPath i))
  | Some fileContent =>
      let node1 :=
        set_value node
          (extractLines fileContent (imp_fromLine i) (imp_hasDash i)
             (imp_toLine i) (preserveTrailingNewline options)) in
      Ok (if removeRedundantIndentations options
          then set_value node1 (StripIndent.stripIndent (value node1))
          else node1)
  end.

(** The loop of line 54 over the nodes [visit] collected: every iteration
    runs its synchronous part before any promise settles. *)
Fixpoint prepare_all (codes : list Code) : result (list (Code * option import)) :=
  match codes with
  | [] => Ok []
  | node :: rest =>
      i <- prepare node ;;
      jobs <- prepare_all rest ;;
      Ok ((node, i) :: jobs)
  end.

(** [Promise.all]: every promise fulfilled, or a rejection. Which of
    several rejections is reported depends on the order in which the reads
    end; the model reports the first in document order. *)
Fixpoint run_all (jobs : list (Code * option import)) : result (list Code) :=
  match jobs with
  | [] => Ok []
  | (node, None) :: rest => nodes <- run_all rest ;; Ok (node :: nodes)
  | (node, Some i) :: rest =>
      node' <- run node i ;;
      nodes <- run_all rest ;;
      Ok (node' :: nodes)
  end.

(** The transformer, on the code nodes of the tree in the order [visit]
    reports them: the states of these nodes when it is fulfilled, or what
    it is rejected with. *)
Definition transformer (codes : list Code) : result (list Code) :=
  jobs <- prepare_all codes ;;
  run_all jobs.

(** Lines 39 to 46. *)
Definition codeImport : result (list Code -> result (list Code)) :=
  if Path.isAbsolute the_rootDir then Ok transformer else Throw RootDirNotAbsolute.

End Transformer.

(** An mdast tree: code blocks, and every other node with its children.
    [other] stands for all the fields of such a node but [children]. *)
#[warnings="-register-all"]
Inductive Node :=
| CodeNode (c : Code)
| OtherNode (type other : jsstring) (children : list Node).

(** [visit(tree, 'code', ...)] of lines 50 to 52: the code nodes, each
    before what follows it in the document. *)
Fixpoint visit (tree : Node) : list Code :=
  match tree with
  | CodeNode c => [c]
  | OtherNode _ _ children => flat_map visit children
  end.

(** The tree once its code nodes are in the states [codes], given in the
    order of [visit]; what is left of [codes] is returned with it. *)
Fixpoint put (tree : Node) (codes : list Code) : Node * list Code :=
  match tree with
  | CodeNode c =>
      match codes with
      | c' :: rest => (CodeNode c', rest)
      | [] => (CodeNode c, [])
      end
  | OtherNode type other children =>
      let put_all :=
        fix put_all (l : list Node) (codes : list Code) : list Node * list Code :=
          match l with
          | [] => ([], codes)
          | x :: xs =>
              let '(x', rest) := put x codes in
              let '(xs', rest') := put_all xs rest in
              (x' :: xs', rest')
          end in
      let '(children', rest) := put_all children codes in
      (OtherNode type other children', rest)
  end.

(** The transformer on a tree: it works on the nodes that [visit] hands
    over, and these are the only ones it writes to. *)
Definition transform_tree (options : CodeImportOptions) (w : world)
    (tree : Node) : result Node :=
  codes <- transformer options w (visit tree) ;;
  Ok (fst (put tree codes)).

(** * Vocabulary of the verification *)

(** ** The outcome of the reference pattern, computed directly

    The backtracking search of [fileMeta_re] is determined by the input:
    the functions below compute the groups it captures without a search.
    They are proved equal to the matcher ([exec_fileMeta]). *)

(** The longest prefix of [s] in the class, and what is left. *)
Fixpoint span (cls : code_unit -> bool) (s : jsstring) : jsstring * jsstring :=
  match s with
  | c :: s' =>
      if cls c then let '(a, b) := span cls s' in (c :: a, b) else ([], s)
  | [] => ([], [])
  end.

(** [(?:L(?<to>\d+))?$] *)
Definition to_groups (s : jsstring) (g : groups) : option groups :=
  match s with
  | [] => Some g
  | y :: r =>
      if N.eqb y (ch "L") then
        match span is_digit r with
        | (d :: ds, []) => Some (set_group Gto (d :: ds) g)
        | _ => None
        end
      else None
  end.

(** [(?:L(?<from>\d+)(?<dash>-)?)?(?:L(?<to>\d+))?$] *)
Definition from_groups (s : jsstring) (g : groups) : option groups :=
  match s with
  | [] => Some g
  | l :: r1 =>
      if N.eqb l (ch "L") then
        match span is_digit r1 with
        | ([], _) => None
        | (d :: ds, r2) =>
            let g1 := set_group Gfrom (d :: ds) g in
            match r2 with
            | [] => Some g1
            | x :: r3 =>
                if N.eqb x (ch "-")
                then to_groups r3 (set_group Gdash [x] g1)
                else to_groups r2 g1
            end
        end
      else None
  end.

(** [(?:#...)?$] *)
Definition tail_groups (t : jsstring) (g : groups) : option groups :=
  match t with
  | [] => Some g
  | c :: r => if N.eqb c (ch "#") then from_groups r g else None
  end.

(** [(?<path>.+?)] in front of the tail: the shortest path first. [acc] is
    the part of the path already passed. *)
Fixpoint path_groups (acc s : jsstring) : option groups :=
  match s with
  | c :: s' =>
      if is_dot c then
        match tail_groups s' (set_group Gpath (acc ++ [c]) no_groups) with
        | Some g => Some g
        | None => path_groups (acc ++ [c]) s'
        end
      else None
  | [] => None
  end.

Definition fileMeta_groups (s : jsstring) : option groups :=
  if startsWith s (str "file=")
  then path_groups [] (skipn (length (str "file=")) s)
  else None.

(** The parts of [fileMeta_re]. *)
Definition to_re : regex :=
  Opt (Seq (Lit (ch "L")) (Named Gto (PlusGreedy is_digit))).
Definition dash_re : regex := Opt (Named Gdash (Lit (ch "-"))).
Definition from_re : regex :=
  Opt (Seq (Lit (ch "L")) (Seq (Named Gfrom (PlusGreedy is_digit)) dash_re)).
Definition line_re : regex := Opt (Seq (Seq (Lit (ch "#")) from_re) to_re).

(** The continuation of the final [$]. *)
Definition k_eol : cont := fun p s g => rmatch Eol p s g k_done.

(** ** The shapes of a reference *)

(** A non-empty run of decimal digits. *)
Definition digits (ds : jsstring) : Prop :=
  ds <> [] /\ forallb is_digit ds = true.

(** What can follow the path in a match of [fileMeta_re]. *)
Inductive line_spec :=
| NoSection                               (* nothing *)
| BareHash                                (* #          *)
| Line (n : jsstring)                     (* #L<n>      *)
| LineDash (n : jsstring)                 (* #L<n>-     *)
| LineDashLine (n m : jsstring)           (* #L<n>-L<m> *)
| LineLine (n m : jsstring).              (* #L<n>L<m>  *)

Definition spec_tail (sp : line_spec) : jsstring :=
  match sp with
  | NoSection => []
  | BareHash => str "#"
  | Line n => str "#L" ++ n
  | LineDash n => str "#L" ++ n ++ str "-"
  | LineDashLine n m => str "#L" ++ n ++ str "-L" ++ m
  | LineLine n m => str "#L" ++ n ++ str "L" ++ m
  end.

Definition spec_wf (sp : line_spec) : Prop :=
  match sp with
  | NoSection | BareHash => True
  | Line n | LineDash n => digits n
  | LineDashLine n m | LineLine n m => digits n /\ digits m
  end.

Definition spec_groups (sp : line_spec) (g : groups) : groups :=
  match sp with
  | NoSection | BareHash => g
  | Line n => set_group Gfrom n g
  | LineDash n => set_group Gdash (str "-") (set_group Gfrom n g)
  | LineDashLine n m =>
      set_group Gto m (set_group Gdash (str "-") (set_group Gfrom n g))
  | LineLine n m => set_group Gto m (set_group Gfrom n g)
  end.

(** The reference the program builds for path [p] followed by [sp]. *)
Definition spec_reference (p : jsstring) (sp : line_spec) : reference :=
  match sp with
  | NoSection | BareHash => mkReference p None true None
  | Line n => mkReference p (Some (parseInt n)) false None
  | LineDash n => mkReference p (Some (parseInt n)) true None
  | LineDashLine n m =>
      mkReference p (Some (parseInt n)) true (Some (parseInt m))
  | LineLine n m =>
      mkReference p (Some (parseInt n)) false (Some (parseInt m))
  end.

(** [s] ends with a line section: it is a non-empty path followed by one
    of the tails that start with [#]. *)
Definition has_section (s : jsstring) : Prop :=
  exists p sp, p <> [] /\ spec_wf sp /\ sp <> NoSection /\ s = p ++ spec_tail sp.

(** The characters of a line section after its [#]. *)
Definition spec_char (c : code_unit) : bool :=
  N.eqb c (ch "L") || N.eqb c (ch "-") || is_digit c.

(** ** Lines of a file *)

(** The lines whose number, counted from [i] for the first line of the
    list, lies between [n] and [m] inclusive. *)
Fixpoint lines_between (n m i : Z) (lines : list jsstring) : list jsstring :=
  match lines with
  | [] => []
  | l :: rest =>
      (if (n <=? i)%Z && (i <=? m)%Z then [l] else [])
        ++ lines_between n m (i + 1) rest
  end.

(** The lines of a file as a whole-file or open-ended import sees them: the
    empty line that a final line feed leaves behind is dropped unless
    trailing newlines are preserved. *)
Definition file_lines (preserve : bool) (content : jsstring) : list jsstring :=
  let lines := split EOL content in
  if Js.eqb (last lines []) [] && negb preserve then removelast lines else lines.

Open Scope string_scope.
Open Scope list_scope.

(** The text whose lines are the given ones. *)
Definition text (lines : list string) : jsstring := join LF (map str lines).

(** What the program puts in the block for a parsed reference. *)
Definition extract_reference (ref : reference) (content : jsstring)
    (preserve : bool) : jsstring :=
  extractLines content (fromLine ref) (hasDash ref) (toLine ref) preserve.

(** The line numbered [n], empty when the file has no such line. *)
Definition line_at (n : Z) (content : jsstring) : jsstring :=
  match nth_error (split EOL content) (Z.to_nat (n - 1)) with
  | Some l => l
  | None => []
  end.

(** The lines from the one numbered [n] to the end of the file. *)
Definition lines_from (n : Z) (preserve : bool) (content : jsstring)
    : list jsstring :=
  skipn (Z.to_nat (n - 1)) (file_lines preserve content).

(** The number of line feeds a text ends with. *)
Fixpoint leading_newlines (s : jsstring) : nat :=
  match s with
  | c :: s' => if N.eqb c 10 then S (leading_newlines s') else 0
  | [] => 0
  end.

Definition trailing_newlines (s : jsstring) : nat := leading_newlines (rev s).

(** The text without its last line feed, if it ends with one. *)
Definition chomp (s : jsstring) : jsstring :=
  match rev s with
  | c :: r => if N.eqb c 10 then rev r else s
  | [] => s
  end.

(** ** Documents and worlds *)

(** A world with one file, in the directory of the document. *)
Definition one_file (dir path content : jsstring) : world :=
  mkWorld dir (Some dir)
    (fun p => if Js.eqb p path then Some content else None).

(** A [js] block with metadata [m] and nothing in it. *)
Definition block (m : string) : Code :=
  mkCode (Some (str "js")) (Some (str m)) [] [].

Definition default_options : CodeImportOptions := mkOptions false false None false.

(** What the transformer may change in a node: the [value] of a block that
    carries a [file=] annotation, and nothing else. *)
Definition framed (node node' : Code) : Prop :=
  lang node' = lang node /\ meta node' = meta node /\ data node' = data node /\
  (find_fileMeta (meta node) = None -> node' = node).

(** The same for a tree: it keeps its shape and every node that is not a
    code block. *)
#[warnings="-register-all"]
Inductive tree_framed : Node -> Node -> Prop :=
| framed_code c c' :
    framed c c' -> tree_framed (CodeNode c) (CodeNode c')
| framed_other type other children children' :
    Forall2 tree_framed children children' ->
    tree_framed (OtherNode type other children)
                (OtherNode type other children').

(** The children of a node, written back one after the other. *)
Fixpoint put_all (l : list Node) (codes : list Code) : list Node * list Code :=
  match l with
  | [] => ([], codes)
  | x :: xs =>
      let '(x', rest) := put x codes in
      let '(xs', rest') := put_all xs rest in
      (x' :: xs', rest')
  end.

(** A segment of a normalised absolute path. *)
Definition segment (x : jsstring) : Prop :=
  x <> [] /\ x <> str "." /\ x <> str ".." /\ ~ In (ch "/") x.

(** The fixture of [test.js], its document and its runs. *)
Definition say_hi : jsstring :=
  text [ "console.log('Hello remark-code-import!');";
         "console.log('This is another line...');";
         "console.log('This is the last line');";
         "console.log('Oops, here is another');";
         "" ].

Definition test_world : world :=
  one_file (str "/repo") (str "/repo/__fixtures__/say-#-hi.js") say_hi.

Definition test_run (options : CodeImportOptions) (q : string)
    : result (list jsstring) :=
  codes <- transformer options test_world
             [block ("file=./__fixtures__/say-#-hi.js" ++ q)] ;;
  Ok (map value codes).

(** ** Metadata *)

(** The way to write a path in the metadata: a backslash in front of every
    space. *)
Definition escape_spaces (q : jsstring) : jsstring :=
  flat_map (fun c => if N.eqb c (ch " ") then [ch "\"; ch " "] else [c]) q.

(** The code unit in front of the end of [t], when [prev] is in front of [t]. *)
Definition last_unit (prev : option code_unit) (t : jsstring) : option code_unit :=
  match rev t with
  | c :: _ => Some c
  | [] => prev
  end.

(** ** Outcomes of the transformer *)

(** The block carries an annotation. *)
Definition annotated (node : Code) : Prop := find_fileMeta (meta node) <> None.

(** What stands behind an error of the transformer on [codes]. *)
Definition justified (options : CodeImportOptions) (w : world)
    (codes : list Code) (e : error) : Prop :=
  match e with
  | RootDirNotAbsolute => False
  | NotVFile =>
      truthy_str (dirname w) = false /\ Exists annotated codes
  | UnableToParse fileMeta =>
      (exists node, In node codes /\ find_fileMeta (meta node) = Some fileMeta) /\
      parse_reference fileMeta = Throw (UnableToParse fileMeta)
  | OutsideRootDir abs root =>
      allowImportingFromOutside options = false /\
      root = the_rootDir options w /\
      outside_rootDir (cwd w) root abs = true
  | ReadFileFailed abs => readFile w abs = None
  end.

(** ** Imported text *)

(** The number of line feeds of a text. *)
Definition line_feeds (s : jsstring) : nat := count_occ N.eq_dec s 10%N.

(** * Verification *)

(** ** What the reference pattern matches *)

Lemma span_app cls s a b : span cls s = (a, b) -> s = a ++ b.
Proof.
  revert a b; induction s as [|c s IH]; simpl; intros a b H.
  - now inversion H.
  - destruct (cls c).
    + destruct (span cls s) as [a' b'] eqn:E. inversion H; subst.
      simpl. f_equal. now apply IH.
    + now inversion H.
Qed.

Lemma span_all cls s a b : span cls s = (a, b) -> forallb cls a = true.
Proof.
  revert a b; induction s as [|c s IH]; simpl; intros a b H.
  - now inversion H.
  - destruct (cls c) eqn:Ec.
    + destruct (span cls s) as [a' b'] eqn:E. inversion H; subst.
      simpl. rewrite Ec. simpl. eapply IH; eauto.
    + now inversion H.
Qed.

Lemma span_intro cls a b :
  forallb cls a = true ->
  match b with c :: _ => cls c = false | [] => True end ->
  span cls (a ++ b) = (a, b).
Proof.
  intros Ha Hb. induction a as [|c a IH]; simpl in *.
  - destruct b as [|c b]; [reflexivity|]. simpl. now rewrite Hb.
  - apply andb_true_iff in Ha as [Hc Ha]. rewrite Hc, (IH Ha). reflexivity.
Qed.

(** A greedy [X+] whose continuation cannot start on an [X] settles on the
    longest run. *)
Lemma greedy_plus_span cls (k : cont) :
  (forall p c r g, cls c = true -> k p (c :: r) g = None) ->
  forall s pos g,
    greedy_plus cls pos s g k =
    match span cls s with
    | ([], _) => None
    | (d :: ds, rest) => k (pos + length (d :: ds))%nat rest g
    end.
Proof.
  intros Hk. induction s as [|c s IH]; intros pos g; simpl; [reflexivity|].
  destruct (cls c) eqn:Ec; [|reflexivity].
  rewrite IH. destruct (span cls s) as [a b] eqn:E.
  pose proof (span_app _ _ _ _ E) as Hs. pose proof (span_all _ _ _ _ E) as Ha.
  destruct a as [|d ds].
  - simpl in Hs. subst b. simpl. replace (pos + 1)%nat with (S pos) by lia.
    reflexivity.
  - simpl length. replace (S pos + S (length ds))%nat
      with (pos + S (S (length ds)))%nat by lia.
    destruct (k (pos + S (S (length ds)))%nat b g) eqn:Ek; [reflexivity|].
    subst s. simpl in Ha. apply andb_true_iff in Ha as [Hd _].
    simpl. now rewrite Hk.
Qed.

Lemma fileMeta_re_parts :
  fileMeta_re =
  Seq Bol (lits (str "file=")
    (Seq (Named Gpath (PlusLazy is_dot)) (Seq line_re Eol))).
Proof. reflexivity. Qed.

Lemma k_eol_cons p c s g : k_eol p (c :: s) g = None.
Proof. reflexivity. Qed.

Lemma firstn_run (pos n : nat) (a b : jsstring) :
  n = length a -> firstn (pos + n - pos) (a ++ b) = a.
Proof.
  intros ->. replace (pos + length a - pos)%nat with (length a + 0)%nat by lia.
  rewrite firstn_app_2. simpl. apply app_nil_r.
Qed.

Lemma to_re_match p s g : rmatch to_re p s g k_eol = to_groups s g.
Proof.
  unfold to_re, to_groups. cbn [rmatch].
  destruct s as [|y r]; [reflexivity|].
  destruct (N.eqb y (ch "L")); [|reflexivity].
  rewrite greedy_plus_span by (intros; reflexivity).
  destruct (span is_digit r) as [a b] eqn:E.
  destruct a as [|d ds]; [reflexivity|].
  destruct b as [|c b]; [|reflexivity].
  apply span_app in E. subst r.
  rewrite (firstn_run (S p) _ (d :: ds) []) by reflexivity. reflexivity.
Qed.

Lemma digit_not_dash c : is_digit c = true -> N.eqb c (ch "-") = false.
Proof.
  unfold is_digit. intros H. apply andb_true_iff in H as [H1 H2].
  apply N.leb_le in H1. apply N.leb_le in H2.
  apply N.eqb_neq. change (ch "-") with 45%N. lia.
Qed.

Lemma digit_not_L c : is_digit c = true -> N.eqb c (ch "L") = false.
Proof.
  unfold is_digit. intros H. apply andb_true_iff in H as [H1 H2].
  apply N.leb_le in H1. apply N.leb_le in H2.
  apply N.eqb_neq. change (ch "L") with 76%N. lia.
Qed.

Lemma dash_not_L c : N.eqb c (ch "-") = true -> N.eqb c (ch "L") = false.
Proof.
  intros H. apply N.eqb_eq in H. subst c. reflexivity.
Qed.

Lemma from_re_match (k : cont) :
  (forall p s g, k p s g = to_groups s g) ->
  forall p s g, rmatch from_re p s g k = from_groups s g.
Proof.
  intros Hk p s g. unfold from_re, dash_re, from_groups. cbn [rmatch].
  destruct s as [|l r1]; [now rewrite Hk|].
  destruct (N.eqb l (ch "L")) eqn:El.
  2:{ rewrite Hk. simpl. now rewrite El. }
  rewrite greedy_plus_span.
  2:{ intros p' c r g' Hc. rewrite (digit_not_dash _ Hc), Hk. simpl.
      now rewrite (digit_not_L _ Hc). }
  assert (Hfb : k p (l :: r1) g =
                match span is_digit r1 with
                | (d :: ds, []) => Some (set_group Gto (d :: ds) g)
                | _ => None
                end).
  { rewrite Hk. unfold to_groups. now rewrite El. }
  rewrite Hfb. clear Hfb.
  destruct (span is_digit r1) as [a b] eqn:E.
  destruct a as [|d ds]; [reflexivity|].
  apply span_app in E. subst r1.
  rewrite (firstn_run (S p) _ (d :: ds) b) by reflexivity.
  destruct b as [|x r3].
  - rewrite Hk. reflexivity.
  - replace (S (S p + length (d :: ds)) - (S p + length (d :: ds)))%nat
      with 1%nat by lia.
    cbn [firstn].
    destruct (N.eqb x (ch "-")) eqn:Ex.
    + rewrite !Hk.
      destruct (to_groups r3 _) eqn:Et; [reflexivity|].
      unfold to_groups. now rewrite (dash_not_L _ Ex).
    + rewrite Hk. destruct (to_groups (x :: r3) _); reflexivity.
Qed.

Lemma line_re_match p t g : rmatch line_re p t g k_eol = tail_groups t g.
Proof.
  unfold line_re, tail_groups. cbn [rmatch].
  destruct t as [|c r]; [reflexivity|].
  destruct (N.eqb c (ch "#")); [|reflexivity].
  rewrite (from_re_match (fun p s g => rmatch to_re p s g k_eol))
    by (intros; apply to_re_match).
  rewrite k_eol_cons. destruct (from_groups r g); reflexivity.
Qed.

Lemma lazy_dot_match (k : cont) :
  (forall p s g, k p s g = tail_groups s g) ->
  forall s acc full pos0 pos,
    full = acc ++ s -> pos = (pos0 + length acc)%nat ->
    lazy_plus is_dot pos s no_groups
      (fun p s' g' => k p s' (set_group Gpath (firstn (p - pos0) full) g'))
    = path_groups acc s.
Proof.
  intros Hk. induction s as [|c s IH]; intros acc full pos0 pos Hfull Hpos;
    cbn [lazy_plus path_groups]; [reflexivity|].
  destruct (is_dot c); [|reflexivity].
  assert (Hcut : firstn (S pos - pos0) full = acc ++ [c]).
  { subst full pos. replace (S (pos0 + length acc) - pos0)%nat
      with (length (acc ++ [c]) + 0)%nat
      by (rewrite length_app; cbn [length]; lia).
    change (acc ++ c :: s) with (acc ++ [c] ++ s). rewrite app_assoc.
    rewrite firstn_app_2. simpl. apply app_nil_r. }
  rewrite Hk, Hcut.
  rewrite (IH (acc ++ [c]) full pos0 (S pos)).
  - reflexivity.
  - subst full. now rewrite <- app_assoc.
  - subst pos. rewrite length_app. cbn [length]. lia.
Qed.

Lemma lits_match l r pos s g k :
  rmatch (lits l r) pos s g k =
  if startsWith s l
  then rmatch r (pos + length l)%nat (skipn (length l) s) g k
  else None.
Proof.
  revert pos s. induction l as [|c l IH]; intros pos s;
    cbn [lits startsWith length skipn].
  - now rewrite Nat.add_0_r.
  - cbn [rmatch]. destruct s as [|x s]; [reflexivity|].
    destruct (N.eqb x c); [|reflexivity]. cbn [andb].
    cbn [rmatch]. rewrite IH. cbn [length skipn].
    now replace (S pos + length l)%nat with (pos + S (length l))%nat by lia.
Qed.

Lemma rmatch_fileMeta pos s :
  rmatch fileMeta_re pos s no_groups k_done =
  if Nat.eqb pos 0 then fileMeta_groups s else None.
Proof.
  rewrite fileMeta_re_parts. cbn [rmatch].
  destruct (Nat.eqb pos 0) eqn:E; [|reflexivity].
  apply Nat.eqb_eq in E. subst pos.
  rewrite lits_match. unfold fileMeta_groups.
  destruct (startsWith s (str "file=")); [|reflexivity].
  cbn [rmatch].
  apply (lazy_dot_match (fun p s' g' => rmatch line_re p s' g' k_eol)).
  - intros. apply line_re_match.
  - reflexivity.
  - reflexivity.
Qed.

Lemma exec_from_later s : forall pos, pos <> 0%nat -> exec_from fileMeta_re pos s = None.
Proof.
  induction s as [|c s IH]; intros pos Hpos; cbn [exec_from];
    rewrite rmatch_fileMeta; destruct (Nat.eqb_spec pos 0); try contradiction.
  - reflexivity.
  - apply IH. lia.
Qed.

(** The matcher on the reference pattern computes [fileMeta_groups]. *)
Lemma exec_fileMeta s : exec fileMeta_re s = fileMeta_groups s.
Proof.
  unfold exec. destruct s as [|c s]; cbn [exec_from]; rewrite rmatch_fileMeta;
    cbn [Nat.eqb].
  - reflexivity.
  - destruct (fileMeta_groups (c :: s)) eqn:E; [reflexivity|].
    apply exec_from_later. lia.
Qed.

(** ** The shapes of a parsed reference *)

Lemma digits_span n rest :
  digits n ->
  match rest with c :: _ => is_digit c = false | [] => True end ->
  exists d ds, n = d :: ds /\ span is_digit (n ++ rest) = (d :: ds, rest).
Proof.
  intros [Hne Hall] Hrest. destruct n as [|d ds]; [contradiction|].
  exists d, ds. split; [reflexivity|]. now apply span_intro.
Qed.

Lemma tail_groups_intro sp g :
  spec_wf sp -> tail_groups (spec_tail sp) g = Some (spec_groups sp g).
Proof.
  destruct sp as [| |n|n|n m|n m]; cbn [spec_wf spec_tail spec_groups].
  - reflexivity.
  - reflexivity.
  - intros Hn. destruct (digits_span n [] Hn I) as (d & ds & -> & E).
    rewrite app_nil_r in E.
    change (tail_groups (ch "#" :: ch "L" :: d :: ds) g =
            Some (set_group Gfrom (d :: ds) g)).
    cbn [tail_groups from_groups]. rewrite !N.eqb_refl, E. reflexivity.
  - intros Hn.
    destruct (digits_span n (str "-") Hn eq_refl) as (d & ds & -> & E).
    change (tail_groups (ch "#" :: ch "L" :: (d :: ds) ++ str "-") g =
            Some (set_group Gdash (str "-") (set_group Gfrom (d :: ds) g))).
    cbn [tail_groups from_groups]. rewrite !N.eqb_refl, E. reflexivity.
  - intros [Hn Hm].
    destruct (digits_span n (str "-L" ++ m) Hn eq_refl) as (d & ds & -> & E).
    destruct (digits_span m [] Hm I) as (e & es & -> & E').
    rewrite app_nil_r in E'.
    change (tail_groups (ch "#" :: ch "L" :: (d :: ds) ++ str "-L" ++ e :: es) g =
            Some (set_group Gto (e :: es)
                    (set_group Gdash (str "-") (set_group Gfrom (d :: ds) g)))).
    cbn [tail_groups from_groups]. rewrite !N.eqb_refl, E.
    change (str "-L" ++ e :: es) with (ch "-" :: ch "L" :: e :: es).
    cbn iota. rewrite N.eqb_refl. cbn [to_groups].
    rewrite N.eqb_refl, E'. reflexivity.
  - intros [Hn Hm].
    destruct (digits_span n (str "L" ++ m) Hn eq_refl) as (d & ds & -> & E).
    destruct (digits_span m [] Hm I) as (e & es & -> & E').
    rewrite app_nil_r in E'.
    change (tail_groups (ch "#" :: ch "L" :: (d :: ds) ++ str "L" ++ e :: es) g =
            Some (set_group Gto (e :: es) (set_group Gfrom (d :: ds) g))).
    cbn [tail_groups from_groups]. rewrite !N.eqb_refl, E.
    change (str "L" ++ e :: es) with (ch "L" :: e :: es).
    cbn iota. change (N.eqb (ch "L") (ch "-")) with false. cbn iota.
    cbn [to_groups]. rewrite N.eqb_refl, E'. reflexivity.
Qed.

Lemma span_digits r a b :
  span is_digit r = (a, b) -> a <> [] -> digits a /\ r = a ++ b.
Proof.
  intros E Ha. split; [split|]; eauto using span_all, span_app.
Qed.

Lemma to_groups_inv s g g' :
  to_groups s g = Some g' ->
  (s = [] /\ g' = g) \/
  (exists m, digits m /\ s = str "L" ++ m /\ g' = set_group Gto m g).
Proof.
  unfold to_groups. destruct s as [|y r]; intros H.
  - left. now inversion H.
  - destruct (N.eqb_spec y (ch "L")) as [->|]; [|discriminate].
    destruct (span is_digit r) as [a b] eqn:E.
    destruct a as [|d ds]; [discriminate|]. destruct b; [|discriminate].
    inversion H; subst. right. exists (d :: ds).
    destruct (span_digits _ _ _ E) as [Hd ->]; [discriminate|].
    rewrite app_nil_r. auto.
Qed.

Lemma tail_groups_inv t g g' :
  tail_groups t g = Some g' ->
  exists sp, spec_wf sp /\ t = spec_tail sp /\ g' = spec_groups sp g.
Proof.
  unfold tail_groups. destruct t as [|c r]; intros H.
  { exists NoSection. inversion H. now cbn. }
  destruct (N.eqb_spec c (ch "#")) as [->|]; [|discriminate].
  unfold from_groups in H. destruct r as [|l r1].
  { exists BareHash. inversion H. now cbn. }
  destruct (N.eqb_spec l (ch "L")) as [->|]; [|discriminate].
  destruct (span is_digit r1) as [a b] eqn:E.
  destruct a as [|d ds]; [discriminate|].
  destruct (span_digits _ _ _ E) as [Hn ->]; [discriminate|].
  destruct b as [|x r3].
  { exists (Line (d :: ds)). inversion H. rewrite app_nil_r. now cbn. }
  destruct (N.eqb_spec x (ch "-")) as [->|].
  - apply to_groups_inv in H as [[-> ->]|(m & Hm & -> & ->)].
    + exists (LineDash (d :: ds)). now cbn.
    + exists (LineDashLine (d :: ds) m). now cbn.
  - apply to_groups_inv in H as [[? _]|(m & Hm & Hs & ->)]; [discriminate|].
    rewrite Hs. exists (LineLine (d :: ds) m). now cbn.
Qed.

Lemma digit_spec_char n : forallb is_digit n = true -> forallb spec_char n = true.
Proof.
  intros H. rewrite forallb_forall in *. intros c Hc. unfold spec_char.
  rewrite (H c Hc). now rewrite !orb_true_r.
Qed.

Lemma spec_tail_chars sp :
  spec_wf sp ->
  match spec_tail sp with
  | [] => True
  | c :: r => c = ch "#" /\ forallb spec_char r = true
  end.
Proof.
  destruct sp as [| |n|n|n m|n m]; cbn [spec_wf spec_tail]; intros H.
  - exact I.
  - split; reflexivity.
  - split; [reflexivity|]. apply (digit_spec_char n), H.
  - split; [reflexivity|]. change (forallb spec_char (n ++ str "-") = true).
    rewrite forallb_app, (digit_spec_char n) by apply H. reflexivity.
  - split; [reflexivity|].
    change (forallb spec_char (n ++ str "-L" ++ m) = true).
    rewrite !forallb_app, (digit_spec_char n), (digit_spec_char m) by apply H.
    reflexivity.
  - split; [reflexivity|].
    change (forallb spec_char (n ++ str "L" ++ m) = true).
    rewrite !forallb_app, (digit_spec_char n), (digit_spec_char m) by apply H.
    reflexivity.
Qed.

Lemma spec_char_dot c : spec_char c = true -> is_dot c = true.
Proof.
  unfold spec_char, is_dot, is_digit. intros H.
  destruct (N.eqb_spec c 10) as [->|]; [discriminate|].
  destruct (N.eqb_spec c 13) as [->|]; [discriminate|].
  destruct (N.eqb_spec c 8232) as [->|]; [discriminate|].
  destruct (N.eqb_spec c 8233) as [->|]; [discriminate|].
  reflexivity.
Qed.

Lemma spec_char_not_hash c : spec_char c = true -> c <> ch "#".
Proof. intros H ->. discriminate. Qed.

(** A tail the pattern accepts has no [#] past its first character. *)
Lemma tail_groups_hash c r g g' :
  tail_groups (c :: r) g = Some g' -> c = ch "#" /\ ~ In (ch "#") r.
Proof.
  intros H. apply tail_groups_inv in H as (sp & Hwf & Ht & _).
  pose proof (spec_tail_chars sp Hwf) as Hc. rewrite <- Ht in Hc.
  destruct Hc as [-> Hr]. split; [reflexivity|].
  intros Hin. rewrite forallb_forall in Hr.
  now apply (spec_char_not_hash _ (Hr _ Hin)).
Qed.

Lemma tail_groups_dots t g g' :
  tail_groups t g = Some g' -> forallb is_dot t = true.
Proof.
  intros H. apply tail_groups_inv in H as (sp & Hwf & Ht & _).
  pose proof (spec_tail_chars sp Hwf) as Hc. rewrite <- Ht in Hc.
  destruct t as [|c r]; [reflexivity|]. destruct Hc as [-> Hr].
  cbn [forallb]. apply andb_true_iff. split; [reflexivity|].
  rewrite forallb_forall in *. intros x Hx. apply spec_char_dot. auto.
Qed.

Lemma path_groups_inv s : forall acc g,
  path_groups acc s = Some g ->
  exists p t, s = p ++ t /\ p <> [] /\ forallb is_dot p = true /\
    tail_groups t (set_group Gpath (acc ++ p) no_groups) = Some g.
Proof.
  induction s as [|c s IH]; intros acc g H; cbn [path_groups] in H;
    [discriminate|].
  destruct (is_dot c) eqn:Ec; [|discriminate].
  destruct (tail_groups s _) eqn:Et.
  - inversion H; subst. exists [c], s. cbn [forallb]. rewrite Ec.
    repeat split; auto. discriminate.
  - apply IH in H as (p & t & -> & Hp & Hd & Ht).
    exists (c :: p), t. cbn [forallb]. rewrite Ec, Hd.
    rewrite <- app_assoc in Ht. repeat split; auto. discriminate.
Qed.

(** The lazy path stops at the first split the tail accepts: if no shorter
    split is accepted, the path is [p]. *)
Lemma path_groups_shortest p : forall acc t g',
  p <> [] -> forallb is_dot p = true ->
  tail_groups t (set_group Gpath (acc ++ p) no_groups) = Some g' ->
  (forall p1 p2 g, p = p1 ++ p2 -> p1 <> [] -> p2 <> [] ->
     tail_groups (p2 ++ t) g = None) ->
  path_groups acc (p ++ t) = Some g'.
Proof.
  induction p as [|c p IH]; intros acc t g' Hne Hd Ht Hmin; [contradiction|].
  cbn [forallb] in Hd. apply andb_true_iff in Hd as [Hc Hd].
  cbn [app path_groups]. rewrite Hc.
  destruct p as [|c' p].
  - cbn [app]. now rewrite Ht.
  - rewrite (Hmin [c] (c' :: p)) by (reflexivity || discriminate).
    apply IH; [discriminate|exact Hd| |].
    + now rewrite <- app_assoc.
    + intros p1 p2 g Hp Hp1 Hp2. apply (Hmin (c :: p1) p2); auto.
      * cbn [app]. now rewrite <- Hp.
      * discriminate.
Qed.

Lemma path_groups_some s : forall acc,
  s <> [] -> forallb is_dot s = true -> exists g, path_groups acc s = Some g.
Proof.
  induction s as [|c s IH]; intros acc Hne Hd; [contradiction|].
  cbn [forallb] in Hd. apply andb_true_iff in Hd as [Hc Hd].
  cbn [path_groups]. rewrite Hc.
  destruct (tail_groups s _) as [g|] eqn:Et; [eauto|].
  destruct s as [|c' s]; [discriminate Et|].
  apply IH; [discriminate|exact Hd].
Qed.

Lemma startsWith_app pre r : startsWith (pre ++ r) pre = true.
Proof.
  induction pre as [|c pre IH]; cbn [app startsWith]; [reflexivity|].
  now rewrite N.eqb_refl, IH.
Qed.

Lemma startsWith_inv pre : forall s,
  startsWith s pre = true -> s = pre ++ skipn (length pre) s.
Proof.
  induction pre as [|c pre IH]; intros s H; cbn [startsWith] in H;
    [reflexivity|].
  destruct s as [|x s]; [discriminate|].
  apply andb_true_iff in H as [Hx Hs]. apply N.eqb_eq in Hx. subst x.
  cbn [length skipn app]. f_equal. now apply IH.
Qed.

Lemma skipn_prefix (pre r : jsstring) : skipn (length pre) (pre ++ r) = r.
Proof. induction pre; cbn [length app skipn]; auto. Qed.

Lemma fileMeta_groups_file rest :
  fileMeta_groups (str "file=" ++ rest) = path_groups [] rest.
Proof.
  unfold fileMeta_groups. now rewrite startsWith_app, skipn_prefix.
Qed.

Lemma parse_reference_groups m p sp :
  p <> [] -> spec_wf sp ->
  fileMeta_groups m = Some (spec_groups sp (set_group Gpath p no_groups)) ->
  parse_reference m = Ok (spec_reference p sp).
Proof.
  intros Hp Hwf H. unfold parse_reference. rewrite exec_fileMeta, H.
  destruct p as [|c p]; [contradiction|].
  destruct sp as [| |n|n|n m'|n m']; cbn [spec_wf] in Hwf;
    try reflexivity.
  - destruct Hwf as [Hn _]. destruct n; [contradiction|]. reflexivity.
  - destruct Hwf as [Hn _]. destruct n; [contradiction|]. reflexivity.
  - destruct Hwf as [[Hn _] [Hm _]].
    destruct n; [contradiction|]. destruct m'; [contradiction|]. reflexivity.
  - destruct Hwf as [[Hn _] [Hm _]].
    destruct n; [contradiction|]. destruct m'; [contradiction|]. reflexivity.
Qed.

(** Every reference the parser returns comes from a [file=], a non-empty
    path and one of the six tails. *)
Lemma parse_reference_inv m ref :
  parse_reference m = Ok ref ->
  exists p sp,
    m = str "file=" ++ p ++ spec_tail sp /\ p <> [] /\
    forallb is_dot p = true /\ spec_wf sp /\ ref = spec_reference p sp.
Proof.
  intros H.
  destruct (fileMeta_groups m) as [g|] eqn:E.
  2:{ unfold parse_reference in H. rewrite exec_fileMeta, E in H. discriminate. }
  pose proof E as E'. unfold fileMeta_groups in E'.
  destruct (startsWith m (str "file=")) eqn:Es; [|discriminate].
  apply startsWith_inv in Es.
  apply path_groups_inv in E' as (p & t & Hs & Hp & Hd & Ht).
  apply tail_groups_inv in Ht as (sp & Hwf & -> & ->).
  exists p, sp. cbn [app] in E.
  rewrite (parse_reference_groups m p sp Hp Hwf E) in H. inversion H.
  repeat split; auto. rewrite Es at 1. now rewrite Hs.
Qed.

Lemma no_hash_no_section p : ~ In (ch "#") p -> ~ has_section p.
Proof.
  intros Hno (q & sp & _ & Hwf & Hsp & ->).
  pose proof (spec_tail_chars sp Hwf) as Hc.
  destruct (spec_tail sp) as [|c r] eqn:Et.
  - destruct sp; try discriminate Et. contradiction.
  - destruct Hc as [-> _]. apply Hno. apply in_or_app. right. now left.
Qed.

(** A path followed by a well-formed line section parses to that path and
    that section; a path alone must not itself end with a section. *)
Lemma parse_reference_intro p sp :
  p <> [] -> forallb is_dot p = true -> spec_wf sp ->
  (sp = NoSection -> ~ has_section p) ->
  parse_reference (str "file=" ++ p ++ spec_tail sp) = Ok (spec_reference p sp).
Proof.
  intros Hp Hd Hwf Hno. apply parse_reference_groups; auto.
  rewrite fileMeta_groups_file.
  apply path_groups_shortest; auto.
  - now apply tail_groups_intro.
  - intros p1 p2 g -> Hp1 Hp2.
    destruct (tail_groups (p2 ++ spec_tail sp) g) as [g'|] eqn:E; [|reflexivity].
    exfalso. destruct p2 as [|c p2]; [contradiction|].
    destruct (spec_tail sp) as [|c' r] eqn:Et.
    + destruct sp; try discriminate Et. apply (Hno eq_refl).
      rewrite app_nil_r in E.
      apply tail_groups_inv in E as (sp' & Hwf' & Hs' & _).
      exists p1, sp'. repeat split; auto.
      * intros ->. discriminate Hs'.
      * now rewrite Hs'.
    + cbn [app] in E. apply tail_groups_hash in E as [-> Hin].
      pose proof (spec_tail_chars sp Hwf) as Hc. rewrite Et in Hc.
      destruct Hc as [-> _]. apply Hin. apply in_or_app. right. now left.
Qed.

(** ** The line extractor *)

Lemma slice_skipn_firstn {A} (s e : Z) (l : list A) :
  (0 <= s)%Z -> (0 <= e)%Z ->
  slice s e l = skipn (Z.to_nat s) (firstn (Z.to_nat e) l).
Proof.
  intros Hs He. unfold slice.
  destruct (Z.ltb_spec s 0); [lia|]. destruct (Z.ltb_spec e 0); [lia|].
  set (len := length l).
  destruct (Z_lt_le_dec s (Z.of_nat len)) as [Hlt|Hge].
  - rewrite (Z.min_l s) by lia.
    rewrite firstn_skipn_comm.
    destruct (Z_lt_le_dec e (Z.of_nat len)) as [Helt|Hege].
    + rewrite (Z.min_l e) by lia.
      destruct (Z_lt_le_dec s e).
      * do 2 f_equal. lia.
      * replace (Z.to_nat (Z.max (e - s) 0)) with 0%nat by lia.
        rewrite Nat.add_0_r.
        rewrite !skipn_all2; [reflexivity| |];
          rewrite length_firstn; fold len; lia.
    + rewrite (Z.min_r e) by lia.
      replace (Z.to_nat s + Z.to_nat (Z.max (Z.of_nat len - s) 0))%nat
        with len by lia.
      now rewrite !firstn_all2 by (fold len; lia).
  - rewrite (Z.min_r s) by lia.
    rewrite !skipn_all2; [apply firstn_nil| |].
    + rewrite length_firstn. fold len. lia.
    + fold len. lia.
Qed.

Lemma lines_between_skipn_firstn lines : forall n m i,
  lines_between n m i lines =
  skipn (Z.to_nat (n - i)) (firstn (Z.to_nat (m - i + 1)) lines).
Proof.
  induction lines as [|x r IH]; intros n m i; cbn [lines_between].
  - now rewrite firstn_nil, skipn_nil.
  - rewrite IH.
    replace (m - (i + 1) + 1)%Z with (m - i)%Z by lia.
    destruct (Z.leb_spec i m) as [Him|Him].
    + replace (Z.to_nat (m - i + 1)) with (S (Z.to_nat (m - i))) by lia.
      cbn [firstn].
      destruct (Z.leb_spec n i) as [Hni|Hni]; cbn [andb app].
      * replace (Z.to_nat (n - i)) with 0%nat by lia.
        replace (Z.to_nat (n - (i + 1))) with 0%nat by lia. reflexivity.
      * replace (Z.to_nat (n - i)) with (S (Z.to_nat (n - (i + 1)))) by lia.
        reflexivity.
    + rewrite andb_false_r. cbn [app].
      replace (Z.to_nat (m - i + 1)) with 0%nat by lia.
      replace (Z.to_nat (m - i)) with 0%nat by lia.
      cbn [firstn]. now rewrite !skipn_nil.
Qed.

Lemma skipn_firstn_one {A} (l : list A) : forall k,
  skipn k (firstn (S k) l) =
  match nth_error l k with Some x => [x] | None => [] end.
Proof.
  induction l as [|x r IH]; intros k.
  - destruct k; reflexivity.
  - destruct k as [|k].
    + reflexivity.
    + cbn [firstn skipn nth_error]. apply IH.
Qed.

Lemma start_line_digits n :
  (0 <= n)%Z -> start_line (Some n) = Z.max 1 n.
Proof.
  intros Hn. unfold start_line. destruct (Z.eqb_spec n 0); lia.
Qed.

(** A reference without a dash selects the one line it names; a trailing
    line number is not looked at. *)
Lemma extract_single content from to preserve :
  (1 <= start_line from)%Z ->
  extractLines content from false to preserve = line_at (start_line from) content.
Proof.
  intros Hn. unfold extractLines, end_line, line_at. cbn [negb].
  rewrite slice_skipn_firstn by lia.
  replace (Z.to_nat (start_line from))
    with (S (Z.to_nat (start_line from - 1))) by lia.
  rewrite skipn_firstn_one.
  destruct (nth_error _ _); reflexivity.
Qed.

Lemma split_nonempty sep : forall s skip, split_go sep skip s <> [].
Proof.
  induction s as [|c s IH]; intros skip; cbn [split_go]; [discriminate|].
  destruct skip; [|apply IH].
  destruct (startsWith _ _); [discriminate|].
  specialize (IH 0%nat). destruct (split_go sep 0 s); [contradiction|discriminate].
Qed.

Lemma slice_file_lines preserve content :
  let lines := split EOL content in
  firstn (Z.to_nat
            (if Js.eqb (last lines []) [] && negb preserve
             then Z.of_nat (length lines) - 1 else Z.of_nat (length lines)))
         lines
  = file_lines preserve content.
Proof.
  intros lines. unfold file_lines. fold lines.
  destruct (Js.eqb (last lines []) [] && negb preserve).
  - rewrite removelast_firstn_len. f_equal. lia.
  - apply firstn_all2. lia.
Qed.

(** An open-ended range runs from its first line to the end of the file;
    a trailing line number 0 counts as none. *)
Lemma extract_open content from to preserve :
  (1 <= start_line from)%Z -> truthy_num to = false ->
  extractLines content from true to preserve =
  join LF (lines_from (start_line from) preserve content).
Proof.
  intros Hn Hto. unfold extractLines, end_line, lines_from. rewrite Hto.
  cbn [negb]. rewrite slice_skipn_firstn.
  - now rewrite slice_file_lines.
  - lia.
  - pose proof (split_nonempty EOL content 0) as Hne. unfold split.
    destruct (split_go EOL 0 content); [contradiction|].
    cbn [length]. destruct (_ && _); lia.
Qed.

(** The whole file. *)
Lemma extract_whole content preserve :
  extractLines content None true None preserve =
  join LF (file_lines preserve content).
Proof.
  rewrite extract_open; [reflexivity|cbn; lia|reflexivity].
Qed.

(** A closed range selects the lines numbered from its first line to [m]. *)
Lemma extract_closed content from m preserve :
  (1 <= start_line from)%Z -> (1 <= m)%Z ->
  extractLines content from true (Some m) preserve =
  join LF (lines_between (start_line from) m 1 (split EOL content)).
Proof.
  intros Hn Hm. unfold extractLines, end_line, truthy_num.
  destruct (Z.eqb_spec m 0); [lia|].
  cbn [negb]. rewrite slice_skipn_firstn by lia.
  rewrite lines_between_skipn_firstn.
  now replace (m - 1 + 1)%Z with m by lia.
Qed.

(** ** The four forms of a reference *)

Lemma parseInt_acc ds : forall acc,
  (0 <= acc)%Z -> forallb is_digit ds = true ->
  (0 <= fold_left (fun a c => a * 10 + (Z.of_N c - 48)) ds acc)%Z.
Proof.
  induction ds as [|d ds IH]; intros acc Hacc Hd; cbn [fold_left]; [exact Hacc|].
  cbn [forallb] in Hd. apply andb_true_iff in Hd as [Hd Hds].
  apply IH; [|exact Hds].
  unfold is_digit in Hd. apply andb_true_iff in Hd as [H1 H2].
  apply N.leb_le in H1. lia.
Qed.

Lemma parseInt_nonneg ds : forallb is_digit ds = true -> (0 <= parseInt ds)%Z.
Proof. intros H. apply parseInt_acc; [lia|exact H]. Qed.

(** C1 (amended): for a path [p] and decimal numerals [n] and [m], the
    parser and the extractor realise the four forms of the grammar.
    [file=p], where [p] does not itself end with a line section, is read as
    the whole file, as a range without bounds; [file=p#L<n>] yields line [n]
    alone; [file=p#L<n>-] yields the lines from [n] to the end of the file;
    [file=p#L<n>-L<m>] yields the lines [n] to [m] inclusive. The lines are
    joined with a line feed. A line number 0 counts as absent: as a first
    line it stands for line 1, as a last line for the end of the file. *)
Theorem reference_forms (p n m content : jsstring) (preserve : bool) :
  p <> [] -> forallb is_dot p = true -> digits n -> digits m ->
  let first := Z.max 1 (parseInt n) in
  (~ has_section p ->
   exists ref,
     parse_reference (str "file=" ++ p) = Ok ref /\
     ref = mkReference p None true None /\
     extract_reference ref content preserve =
       join LF (file_lines preserve content))
  /\
  (exists ref,
     parse_reference (str "file=" ++ p ++ str "#L" ++ n) = Ok ref /\
     ref = mkReference p (Some (parseInt n)) false None /\
     extract_reference ref content preserve = line_at first content)
  /\
  (exists ref,
     parse_reference (str "file=" ++ p ++ str "#L" ++ n ++ str "-") = Ok ref /\
     ref = mkReference p (Some (parseInt n)) true None /\
     extract_reference ref content preserve =
       join LF (lines_from first preserve content))
  /\
  (exists ref,
     parse_reference (str "file=" ++ p ++ str "#L" ++ n ++ str "-L" ++ m) = Ok ref /\
     ref = mkReference p (Some (parseInt n)) true (Some (parseInt m)) /\
     extract_reference ref content preserve =
       if (parseInt m =? 0)%Z
       then join LF (lines_from first preserve content)
       else join LF (lines_between first (parseInt m) 1 (split EOL content))).
Proof.
  intros Hp Hd Hn Hm first.
  pose proof (parseInt_nonneg n (proj2 Hn)) as Hn0.
  pose proof (parseInt_nonneg m (proj2 Hm)) as Hm0.
  assert (Hfirst : start_line (Some (parseInt n)) = first)
    by now apply start_line_digits.
  assert (H1 : (1 <= start_line (Some (parseInt n)))%Z) by (rewrite Hfirst; lia).
  repeat split.
  - intros Hno. eexists. split; [|split; [reflexivity|]].
    + pose proof (parse_reference_intro p NoSection Hp Hd I (fun _ => Hno)) as H.
      cbn [spec_tail spec_reference] in H. rewrite app_nil_r in H. exact H.
    + apply extract_whole.
  - eexists. split; [|split; [reflexivity|]].
    + apply (parse_reference_intro p (Line n) Hp Hd Hn). discriminate.
    + rewrite <- Hfirst. now apply extract_single.
  - eexists. split; [|split; [reflexivity|]].
    + apply (parse_reference_intro p (LineDash n) Hp Hd Hn). discriminate.
    + rewrite <- Hfirst. now apply extract_open.
  - eexists. split; [|split; [reflexivity|]].
    + apply (parse_reference_intro p (LineDashLine n m) Hp Hd (conj Hn Hm)).
      discriminate.
    + rewrite <- Hfirst. unfold extract_reference.
      cbn [fromLine hasDash toLine].
      destruct (Z.eqb_spec (parseInt m) 0) as [E|E].
      * apply extract_open; [exact H1|]. cbn [truthy_num]. now rewrite E.
      * apply extract_closed; [exact H1|lia].
Qed.

(** The four forms on the fixture of the specification. *)
Lemma reference_forms_witness :
  let content := text ["Hello"; "line2"; "line3"; "line4"; ""] in
  exists r1 r2 r3 r4,
    parse_reference (str "file=f.js") = Ok r1 /\
    extract_reference r1 content false = text ["Hello"; "line2"; "line3"; "line4"] /\
    parse_reference (str "file=f.js#L2") = Ok r2 /\
    extract_reference r2 content false = text ["line2"] /\
    parse_reference (str "file=f.js#L2-") = Ok r3 /\
    extract_reference r3 content false = text ["line2"; "line3"; "line4"] /\
    parse_reference (str "file=f.js#L2-L3") = Ok r4 /\
    extract_reference r4 content false = text ["line2"; "line3"].
Proof.
  intros content.
  destruct (reference_forms (str "f.js") (str "2") (str "3") content false)
    as (H1 & (r2 & P2 & _ & E2) & (r3 & P3 & _ & E3) & (r4 & P4 & _ & E4)).
  - discriminate.
  - reflexivity.
  - split; [discriminate|reflexivity].
  - split; [discriminate|reflexivity].
  - destruct H1 as (r1 & P1 & _ & E1).
    + apply no_hash_no_section. vm_compute. intuition discriminate.
    + exists r1, r2, r3, r4.
      repeat split; solve [assumption
                          | rewrite E1; reflexivity | rewrite E2; reflexivity
                          | rewrite E3; reflexivity | rewrite E4; reflexivity].
Defined.

(** C1, as stated, fails on a line number 0: [#L1-L0] parses, and yields
    the whole file instead of the lines 1 to 0, of which there are none. *)
Lemma reference_forms_counterexample :
  let content := text ["a"; "b"] in
  let ref := mkReference (str "f") (Some 1%Z) true (Some 0%Z) in
  parse_reference (str "file=f#L1-L0") = Ok ref /\
  extract_reference ref content false = text ["a"; "b"] /\
  join LF (lines_between 1 0 1 (split EOL content)) = [] /\
  extract_reference ref content false
    <> join LF (lines_between 1 0 1 (split EOL content)).
Proof.
  vm_compute. repeat split; discriminate.
Qed.

(** ** Line numbers out of range *)

(** C6 (amended): the extractor is a total function of the file text and
    the line selection, so no line number makes it throw. If [fromLine]
    exceeds the number of lines the result is empty; if a dash is present
    and [toLine] is at least 1 and below [fromLine] the result is empty. *)
Theorem extract_out_of_range (content : jsstring) (f : Z) (dash : bool)
    (to : option Z) (preserve : bool) :
  (Z.of_nat (length (split EOL content)) < f)%Z
  \/ (dash = true /\ exists t, to = Some t /\ (1 <= t < f)%Z) ->
  extractLines content (Some f) dash to preserve = [].
Proof.
  intros H. unfold extractLines.
  set (lines := split EOL content) in *.
  assert (Hf : (1 <= f)%Z) by (destruct H as [H|(_ & t & _ & H)]; lia).
  assert (Hs : start_line (Some f) = f).
  { unfold start_line. destruct (Z.eqb_spec f 0); [lia|reflexivity]. }
  rewrite Hs.
  destruct H as [Hlen|(-> & t & -> & Ht)].
  - unfold slice. destruct (Z.ltb_spec (f - 1) 0); [lia|].
    rewrite (Z.min_r (f - 1)) by lia. rewrite Nat2Z.id.
    rewrite skipn_all. now rewrite firstn_nil.
  - unfold end_line, truthy_num. destruct (Z.eqb_spec t 0); [lia|]. cbn [negb].
    rewrite slice_skipn_firstn by lia.
    rewrite skipn_all2; [reflexivity|]. rewrite length_firstn. lia.
Qed.

Lemma extract_out_of_range_witness :
  extractLines (text ["a"; "b"]) (Some 3%Z) false None false = [] /\
  extractLines (text ["a"; "b"]) (Some 2%Z) true (Some 1%Z) false = [].
Proof.
  split.
  - apply extract_out_of_range. left. vm_compute. reflexivity.
  - apply extract_out_of_range. right. split; [reflexivity|].
    exists 1%Z. split; [reflexivity|lia].
Defined.

(** C6, as stated, fails for a [toLine] below [fromLine] in two ways: a
    trailing line number 0 counts as none, so that [#L2-L0] runs to the end
    of the file; and without a dash, as in [#L2L1], the trailing number is
    not looked at. *)
Lemma extract_out_of_range_counterexample :
  let content := text ["a"; "b"; "c"] in
  parse_reference (str "file=f#L2-L0")
    = Ok (mkReference (str "f") (Some 2%Z) true (Some 0%Z)) /\
  extractLines content (Some 2%Z) true (Some 0%Z) false = text ["b"; "c"] /\
  parse_reference (str "file=f#L2L1")
    = Ok (mkReference (str "f") (Some 2%Z) false (Some 1%Z)) /\
  extractLines content (Some 2%Z) false (Some 1%Z) false = text ["b"] /\
  text ["b"; "c"] <> [] /\ text ["b"] <> [].
Proof.
  vm_compute. repeat split; discriminate.
Qed.

(** ** Trailing newlines of a whole-file import *)

Lemma split_cons_LF s : split EOL (10%N :: s) = [] :: split EOL s.
Proof. reflexivity. Qed.

Lemma split_cons_other c s :
  c <> 10%N -> split EOL (c :: s) = cons_head c (split EOL s).
Proof.
  intros Hc. unfold split. cbn [split_go].
  change (startsWith (c :: s) EOL) with (N.eqb c 10 && true).
  apply N.eqb_neq in Hc. now rewrite Hc.
Qed.

Lemma cons_head_app c l l' :
  l <> [] -> cons_head c (l ++ l') = cons_head c l ++ l'.
Proof. destruct l; [contradiction|reflexivity]. Qed.

Lemma split_snoc_LF s : split EOL (s ++ [10%N]) = split EOL s ++ [[]].
Proof.
  induction s as [|c s IH]; [reflexivity|]. cbn [app].
  destruct (N.eq_dec c 10) as [->|Hc].
  - now rewrite !split_cons_LF, IH.
  - rewrite !split_cons_other, IH by exact Hc.
    apply cons_head_app, split_nonempty.
Qed.

Lemma last_cons_head c l :
  l <> [] -> last (cons_head c l) [] <> [] \/ last (cons_head c l) [] = last l [].
Proof.
  destruct l as [|x [|y l]]; [contradiction| |]; intros _.
  - left. discriminate.
  - right. reflexivity.
Qed.

Lemma last_split_snoc_other s c :
  c <> 10%N -> last (split EOL (s ++ [c])) [] <> [].
Proof.
  intros Hc. induction s as [|x s IH]; cbn [app].
  - rewrite split_cons_other by exact Hc. discriminate.
  - destruct (N.eq_dec x 10) as [->|Hx].
    + rewrite split_cons_LF. pose proof (split_nonempty EOL (s ++ [c]) 0) as Hne.
      unfold split in *. cbn [last].
      destruct (split_go EOL 0 (s ++ [c])); [contradiction|exact IH].
    + rewrite split_cons_other by exact Hx.
      destruct (last_cons_head x (split EOL (s ++ [c])))
        as [H|H]; [apply split_nonempty|exact H|now rewrite H].
Qed.

Lemma join_cons_head c l : l <> [] -> join LF (cons_head c l) = c :: join LF l.
Proof. destruct l as [|x [|y l]]; [contradiction| |]; reflexivity. Qed.

Lemma join_cons_nil l : l <> [] -> join LF ([] :: l) = 10%N :: join LF l.
Proof. destruct l; [contradiction|reflexivity]. Qed.

(** Splitting on the line feed and joining with it gives the text back. *)
Lemma join_split s : join LF (split EOL s) = s.
Proof.
  induction s as [|c s IH]; [reflexivity|].
  destruct (N.eq_dec c 10) as [->|Hc].
  - rewrite split_cons_LF, join_cons_nil by apply split_nonempty.
    now rewrite IH.
  - rewrite split_cons_other by exact Hc.
    rewrite join_cons_head by apply split_nonempty. now rewrite IH.
Qed.

Lemma file_lines_preserve content : file_lines true content = split EOL content.
Proof. unfold file_lines. now rewrite andb_false_r. Qed.

Lemma eqb_nil s : Js.eqb s [] = true <-> s = [].
Proof. destruct s; cbn; split; congruence. Qed.

Lemma join_file_lines content :
  join LF (file_lines false content) = chomp content.
Proof.
  unfold file_lines, chomp. rewrite andb_true_r.
  destruct (rev content) as [|c r] eqn:Er.
  - apply (f_equal (@rev _)) in Er. rewrite rev_involutive in Er. now subst.
  - apply (f_equal (@rev _)) in Er. rewrite rev_involutive in Er.
    cbn [rev] in Er. subst content.
    destruct (N.eqb_spec c 10) as [->|Hc].
    + rewrite split_snoc_LF, last_last. cbn [Js.eqb].
      rewrite removelast_last. apply join_split.
    + destruct (Js.eqb _ []) eqn:E; [|apply join_split].
      apply eqb_nil in E. now apply last_split_snoc_other in E.
Qed.

Lemma trailing_newlines_chomp s :
  trailing_newlines (chomp s) = pred (trailing_newlines s).
Proof.
  unfold trailing_newlines, chomp.
  destruct (rev s) as [|c r] eqn:Er.
  - now rewrite Er.
  - destruct (N.eqb c 10) eqn:E.
    + rewrite rev_involutive. cbn [leading_newlines]. now rewrite E.
    + rewrite Er. cbn [leading_newlines]. now rewrite E.
Qed.

(** C7: a whole-file import with [preserveTrailingNewline] returns the file
    text as it is, hence with every line feed it ends with; without the
    option, the text loses exactly one final line feed if it has any. *)
Theorem whole_file_trailing_newlines (content : jsstring) :
  extractLines content None true None true = content /\
  extractLines content None true None false = chomp content /\
  trailing_newlines (extractLines content None true None true)
    = trailing_newlines content /\
  trailing_newlines (extractLines content None true None false)
    = pred (trailing_newlines content).
Proof.
  assert (H1 : extractLines content None true None true = content).
  { rewrite extract_whole, file_lines_preserve. apply join_split. }
  assert (H2 : extractLines content None true None false = chomp content).
  { rewrite extract_whole. apply join_file_lines. }
  rewrite H1, H2. repeat split. apply trailing_newlines_chomp.
Qed.

(** ** References the grammar of the specification does not have *)

Lemma digits_dots n : forallb is_digit n = true -> forallb is_dot n = true.
Proof.
  intros H. apply digit_spec_char in H. rewrite forallb_forall in *.
  intros c Hc. apply spec_char_dot. auto.
Qed.

Lemma digit_not_hash c : is_digit c = true -> c <> ch "#".
Proof. intros H ->. discriminate. Qed.

(** No non-empty end of [p#-L<n>] is a line section. *)
Lemma only_following_no_section p n p1 p2 g :
  forallb is_digit n = true ->
  p ++ str "#-L" ++ n = p1 ++ p2 -> p2 <> [] -> tail_groups p2 g = None.
Proof.
  intros Hn Heq Hp2.
  destruct (tail_groups p2 g) as [g'|] eqn:E; [exfalso|reflexivity].
  destruct p2 as [|c r]; [contradiction|].
  pose proof (tail_groups_hash _ _ _ _ E) as [Hc Hin]. subst c.
  apply app_eq_app in Heq as [l [[Hp Hr]|[Hp Hr]]].
  - destruct l as [|x l].
    + cbn [app] in Hr. change (str "#-L" ++ n) with (ch "#" :: ch "-" :: ch "L" :: n) in Hr.
      inversion Hr; subst r. cbn in E. discriminate.
    + cbn [app] in Hr. inversion Hr; subst. apply Hin.
      apply in_or_app. right. now left.
  - change (str "#-L" ++ n) with (ch "#" :: ch "-" :: ch "L" :: n) in Hr.
    destruct l as [|a [|b [|c l]]]; cbn [app] in Hr; inversion Hr; subst.
    + cbn in E. discriminate.
    + rewrite forallb_app in Hn. apply andb_true_iff in Hn as [_ Hn].
      cbn [forallb] in Hn. apply andb_true_iff in Hn as [Hd _].
      now apply (digit_not_hash _ Hd).
Qed.

(** C3 (amended): an annotation [file=p#-L<n>] is not refused by the
    parser. The pattern finds no line section in it, so that [#-L<n>]
    belongs to the path: the reference names the whole file [p#-L<n>], and
    processing fails only if that file cannot be imported. *)
Theorem only_following_lines (p n : jsstring) :
  forallb is_dot p = true -> digits n ->
  parse_reference (str "file=" ++ p ++ str "#-L" ++ n)
    = Ok (mkReference (p ++ str "#-L" ++ n) None true None).
Proof.
  intros Hd [Hn Hdig].
  apply (parse_reference_groups _ (p ++ str "#-L" ++ n) NoSection).
  - destruct p; discriminate.
  - exact I.
  - rewrite fileMeta_groups_file.
    rewrite <- (app_nil_r (p ++ str "#-L" ++ n)) at 1.
    apply path_groups_shortest.
    + destruct p; discriminate.
    + rewrite !forallb_app, Hd, (digits_dots n Hdig). reflexivity.
    + reflexivity.
    + intros p1 p2 g Heq _ Hp2. rewrite app_nil_r.
      now apply (only_following_no_section p n p1 p2 g).
Qed.

Lemma only_following_lines_witness :
  parse_reference (str "file=f.js#-L2")
    = Ok (mkReference (str "f.js#-L2") None true None).
Proof.
  apply (only_following_lines (str "f.js") (str "2")).
  - reflexivity.
  - split; [discriminate|reflexivity].
Defined.

(** C4 (amended): the parser refuses an annotation only when nothing
    follows [file=] or when a line terminator does. Otherwise it succeeds:
    the annotation is [file=], the path and one of the tails of the
    pattern, and whatever does not form such a tail is part of the path. *)
Theorem parse_reference_accepts (m : jsstring) :
  ((exists ref, parse_reference m = Ok ref) <->
   (exists rest, m = str "file=" ++ rest /\ rest <> [] /\
                 forallb is_dot rest = true))
  /\ (forall ref, parse_reference m = Ok ref ->
        exists sp, spec_wf sp /\ m = str "file=" ++ filePath ref ++ spec_tail sp)
  /\ (forall e, parse_reference m = Throw e -> e = UnableToParse m).
Proof.
  split; [split|split].
  - intros [ref H].
    apply parse_reference_inv in H as (p & sp & -> & Hp & Hd & Hwf & _).
    exists (p ++ spec_tail sp). split; [reflexivity|]. split.
    + destruct p; [contradiction|discriminate].
    + rewrite forallb_app, Hd.
      apply (tail_groups_dots _ no_groups _ (tail_groups_intro sp no_groups Hwf)).
  - intros (rest & -> & Hne & Hd).
    destruct (path_groups_some rest [] Hne Hd) as [g Hg].
    pose proof Hg as Hg'.
    apply path_groups_inv in Hg' as (p & t & Hrest & Hp & _ & Ht).
    apply tail_groups_inv in Ht as (sp & Hwf & -> & ->).
    exists (spec_reference p sp). apply parse_reference_groups; auto.
  - intros ref H.
    apply parse_reference_inv in H as (p & sp & -> & _ & _ & Hwf & ->).
    exists sp. split; [exact Hwf|]. destruct sp; reflexivity.
  - intros e H. unfold parse_reference in H.
    destruct (exec fileMeta_re m) as [g|]; [|now inversion H].
    destruct (g_path g) as [[|c q]|]; now inversion H.
Qed.

(** C4, as stated, fails: a tail of stray characters is not refused, it is
    read as part of the path. *)
Lemma parse_reference_accepts_counterexample :
  parse_reference (str "file=a.js#Lx")
    = Ok (mkReference (str "a.js#Lx") None true None) /\
  parse_reference (str "file=a.js#L2-L3x")
    = Ok (mkReference (str "a.js#L2-L3x") None true None).
Proof. vm_compute. split; reflexivity. Qed.

(** C8 (amended): in every reference the parser produces, a [toLine] comes
    with a [fromLine]. It does not come with a dash: [#L<n>L<m>] is
    accepted with [toLine] set and [isRange] false, and for a reference
    without a dash the extractor does not look at [toLine]. *)
Theorem toLine_needs_fromLine (m : jsstring) (ref : reference) :
  parse_reference m = Ok ref ->
  (forall t, toLine ref = Some t -> exists f, fromLine ref = Some f) /\
  (hasDash ref = false ->
   forall content preserve,
     extract_reference ref content preserve =
     extractLines content (fromLine ref) false None preserve).
Proof.
  intros H. apply parse_reference_inv in H as (p & sp & _ & _ & _ & _ & ->).
  split.
  - intros t Ht. destruct sp; cbn in Ht; try discriminate; cbn; eauto.
  - intros Hdash content preserve. unfold extract_reference. rewrite Hdash.
    reflexivity.
Qed.

Lemma toLine_needs_fromLine_witness :
  (forall t, Some 2%Z = Some t -> exists f, Some 1%Z = Some f) /\
  (false = false ->
   forall content preserve,
     extractLines content (Some 1%Z) false (Some 2%Z) preserve =
     extractLines content (Some 1%Z) false None preserve).
Proof.
  apply (toLine_needs_fromLine (str "file=a#L1L2")
           (mkReference (str "a") (Some 1%Z) false (Some 2%Z))).
  vm_compute. reflexivity.
Defined.

(** C8, as stated, fails: [#L1L2] yields [toLine] set and [isRange] false. *)
Lemma toLine_needs_fromLine_counterexample :
  parse_reference (str "file=a#L1L2")
    = Ok (mkReference (str "a") (Some 1%Z) false (Some 2%Z)).
Proof. vm_compute. reflexivity. Qed.

(** C9 (amended): in every reference the parser produces, [fromLine], when
    present, is at least 0, and the line the extractor starts from,
    [fromLine || 1], is at least 1. *)
Theorem fromLine_lower_bound (m : jsstring) (ref : reference) :
  parse_reference m = Ok ref ->
  (forall f, fromLine ref = Some f -> (0 <= f)%Z) /\
  (1 <= start_line (fromLine ref))%Z.
Proof.
  intros H. apply parse_reference_inv in H as (p & sp & _ & _ & _ & Hwf & ->).
  assert (Hfrom : forall f, fromLine (spec_reference p sp) = Some f -> (0 <= f)%Z).
  { intros f Hf. destruct sp; cbn in Hf, Hwf; inversion Hf;
      apply parseInt_nonneg; apply Hwf. }
  split; [exact Hfrom|].
  unfold start_line. destruct (fromLine (spec_reference p sp)) as [f|]; [|lia].
  specialize (Hfrom f eq_refl). destruct (Z.eqb_spec f 0); lia.
Qed.

Lemma fromLine_lower_bound_witness :
  (forall f, Some 0%Z = Some f -> (0 <= f)%Z) /\ (1 <= start_line (Some 0%Z))%Z.
Proof.
  apply (fromLine_lower_bound (str "file=a#L0")
           (mkReference (str "a") (Some 0%Z) false None)).
  vm_compute. reflexivity.
Defined.

(** C9, as stated, fails: [#L0] yields [fromLine = 0]. *)
Lemma fromLine_lower_bound_counterexample :
  parse_reference (str "file=a#L0")
    = Ok (mkReference (str "a") (Some 0%Z) false None).
Proof. vm_compute. reflexivity. Qed.

(** ** The transformer *)

(** C3, as stated, fails: [file=f.js#-L2] is processed without an error
    when a file of the name [f.js#-L2] is there, and otherwise the error is
    that of the failed read, not that of the parser. *)
Lemma only_following_lines_counterexample :
  transformer default_options
    (one_file (str "/r") (str "/r/f.js#-L2") (text ["x"; "y"; ""]))
    [block "file=f.js#-L2"]
  = Ok [set_value (block "file=f.js#-L2") (text ["x"; "y"])] /\
  transformer default_options
    (one_file (str "/r") (str "/r/f.js") (text ["x"; "y"; ""]))
    [block "file=f.js#-L2"]
  = Throw (ReadFileFailed (str "/r/f.js#-L2")).
Proof. vm_compute. split; reflexivity. Qed.

(** C5 (amended): when [removeRedundantIndentations] is configured, the
    text of every import goes through [stripIndent], whatever the line
    section of its reference, and without the option no import does. *)
Theorem strip_applies_to_every_import (options : CodeImportOptions)
    (w : world) (node : Code) (fileMeta dir content : jsstring)
    (ref : reference) :
  find_fileMeta (meta node) = Some fileMeta ->
  dirname w = Some dir -> dir <> [] ->
  parse_reference fileMeta = Ok ref ->
  let abs :=
    Path.resolve (cwd w)
      [dir; unescape_spaces (replace_rootDir (filePath ref) (the_rootDir options w))] in
  check_rootDir (allowImportingFromOutside options) (cwd w)
    (the_rootDir options w) abs = Ok abs ->
  readFile w abs = Some content ->
  let extracted :=
    extract_reference ref content (preserveTrailingNewline options) in
  transformer options w [node] =
  Ok [set_value node
        (if removeRedundantIndentations options
         then StripIndent.stripIndent extracted else extracted)].
Proof.
  intros Hmeta Hdir Hne Hparse abs Hcheck Hread extracted.
  unfold transformer. cbn [prepare_all]. unfold prepare.
  rewrite Hmeta, Hdir. destruct dir as [|c d]; [contradiction|].
  cbn [truthy_str negb]. rewrite Hparse. subst abs extracted. cbn [bind].
  cbv zeta. rewrite Hcheck. cbn [bind run_all].
  unfold run. cbn [fileAbsPath]. rewrite Hread.
  destruct (removeRedundantIndentations options); reflexivity.
Qed.

Lemma strip_applies_to_every_import_witness :
  transformer (mkOptions false true None false)
    (one_file (str "/r") (str "/r/f.js") (text ["  a"; "    b"; "  c"]))
    [block "file=f.js#L1-L2"]
  = Ok [set_value (block "file=f.js#L1-L2") (text ["a"; "  b"])].
Proof.
  apply (strip_applies_to_every_import (mkOptions false true None false)
           (one_file (str "/r") (str "/r/f.js") (text ["  a"; "    b"; "  c"]))
           (block "file=f.js#L1-L2") (str "file=f.js#L1-L2") (str "/r")
           (text ["  a"; "    b"; "  c"])
           (mkReference (str "f.js") (Some 1%Z) true (Some 2%Z)));
    try (vm_compute; reflexivity).
  discriminate.
Defined.

(** C5, as stated, fails: with [removeRedundantIndentations], the lines 1
    to 2 of an indented file are imported without their common
    indentation. *)
Lemma strip_applies_to_every_import_counterexample :
  transformer (mkOptions false true None false)
    (one_file (str "/r") (str "/r/f.js") (text ["  a"; "    b"; "  c"]))
    [block "file=f.js#L1-L2"]
  = Ok [set_value (block "file=f.js#L1-L2") (text ["a"; "  b"])] /\
  extractLines (text ["  a"; "    b"; "  c"]) (Some 1%Z) true (Some 2%Z) false
  = text ["  a"; "    b"] /\
  text ["a"; "  b"] <> text ["  a"; "    b"].
Proof. vm_compute. repeat split; discriminate. Qed.

Section Frame.

Variable options : CodeImportOptions.
Variable w : world.

Lemma prepare_no_annotation node :
  find_fileMeta (meta node) = None -> prepare options w node = Ok None.
Proof. intros H. unfold prepare. now rewrite H. Qed.

Lemma run_sets_value node i node' :
  run options w node i = Ok node' -> exists v, node' = set_value node v.
Proof.
  unfold run. destruct (readFile w (fileAbsPath i)); [|discriminate].
  intros H. inversion H.
  destruct (removeRedundantIndentations options); eexists; reflexivity.
Qed.

Lemma transformer_cons node rest codes' :
  transformer options w (node :: rest) = Ok codes' ->
  exists i node' rest',
    prepare options w node = Ok i /\
    transformer options w rest = Ok rest' /\
    codes' = node' :: rest' /\
    match i with
    | None => node' = node
    | Some imp => run options w node imp = Ok node'
    end.
Proof.
  unfold transformer. cbn [prepare_all].
  destruct (prepare options w node) as [i|] eqn:Ep; [|discriminate].
  cbn [bind].
  destruct (prepare_all options w rest) as [jobs|] eqn:Ea; [|discriminate].
  cbn [bind run_all]. destruct i as [imp|].
  - destruct (run options w node imp) as [node'|] eqn:Er; [|discriminate].
    cbn [bind].
    destruct (run_all options w jobs) as [rest'|] eqn:Ej; [|discriminate].
    cbn [bind]. intros H. inversion H. exists (Some imp), node', rest'.
    repeat split; assumption.
  - destruct (run_all options w jobs) as [rest'|] eqn:Ej; [|discriminate].
    cbn [bind]. intros H. inversion H. exists None, node, rest'.
    repeat split; assumption.
Qed.

End Frame.

(** Induction on a tree, with the hypothesis for every child. *)
Lemma Node_induction (P : Node -> Prop) :
  (forall c, P (CodeNode c)) ->
  (forall type other children,
     Forall P children -> P (OtherNode type other children)) ->
  forall tree, P tree.
Proof.
  intros Hcode Hother. fix IH 1. intros [c|type other children].
  - apply Hcode.
  - apply Hother. induction children as [|x xs IHxs]; constructor.
    + apply IH.
    + exact IHxs.
Qed.

Lemma put_other type other children codes :
  put (OtherNode type other children) codes =
  (OtherNode type other (fst (put_all children codes)),
   snd (put_all children codes)).
Proof.
  cbn [put]. fold put_all. now destruct (put_all children codes).
Qed.

(** Writing back states that are framed gives a framed tree, and uses up
    exactly the states of the nodes of the tree. *)
Lemma put_framed tree : forall codes' rest,
  Forall2 framed (visit tree) codes' ->
  tree_framed tree (fst (put tree (codes' ++ rest))) /\
  snd (put tree (codes' ++ rest)) = rest.
Proof.
  induction tree as [c|type other children IH] using Node_induction;
    intros codes' rest H.
  - cbn [visit] in H. inversion H as [|? c' ? l' Hc Hl]; subst.
    inversion Hl; subst. cbn. split; [now constructor|reflexivity].
  - rewrite put_other. cbn [fst snd visit] in *.
    assert (Hall : Forall2 tree_framed children
                     (fst (put_all children (codes' ++ rest))) /\
                   snd (put_all children (codes' ++ rest)) = rest).
    { clear type other. revert codes' H.
      induction children as [|x xs IHxs]; intros codes' H.
      - cbn [flat_map] in H. inversion H; subst. cbn. split; [constructor|reflexivity].
      - cbn [flat_map] in H. apply Forall2_app_inv_l in H as (c1 & c2 & H1 & H2 & ->).
        inversion IH as [|? ? IHx IHrest]; subst.
        destruct (IHx c1 (c2 ++ rest) H1) as [Hx Hrest].
        destruct (IHxs IHrest c2 H2) as [Hxs Hrest'].
        cbn [put_all]. rewrite <- app_assoc.
        destruct (put x (c1 ++ c2 ++ rest)) as [x' r] eqn:Ex.
        cbn [fst snd] in Hx, Hrest. subst r.
        destruct (put_all xs (c2 ++ rest)) as [xs' r'] eqn:Exs.
        cbn [fst snd] in *. split; [now constructor|assumption]. }
    destruct Hall as [Hch Hrest]. split; [now constructor|assumption].
Qed.

(** C10: when the transformation succeeds, the tree has kept its shape and
    all its nodes that are not code blocks; every code block has kept its
    language, metadata and remaining fields, and a block whose metadata has
    no token starting with [file=] is unchanged altogether. For such a
    block no read is ever started. *)
Theorem transformer_frame (options : CodeImportOptions) (w : world)
    (tree tree' : Node) :
  transform_tree options w tree = Ok tree' ->
  tree_framed tree tree' /\
  (forall node, In node (visit tree) -> find_fileMeta (meta node) = None ->
                prepare options w node = Ok None).
Proof.
  intros H. split; [|intros node _; apply prepare_no_annotation].
  unfold transform_tree in H.
  destruct (transformer options w (visit tree)) as [codes'|] eqn:Et;
    [|discriminate].
  cbn [bind] in H. inversion H; subst tree'. clear H.
  assert (Hcodes : Forall2 framed (visit tree) codes').
  { revert codes' Et. induction (visit tree) as [|node rest IH]; intros codes' H.
    - inversion H. constructor.
    - apply transformer_cons in H as (i & node' & rest' & Hp & Ht & -> & Hi).
      constructor; [|now apply IH].
      destruct i as [imp|].
      + apply run_sets_value in Hi as [v ->]. repeat split.
        intros Hnone. rewrite (prepare_no_annotation options w node Hnone) in Hp.
        discriminate.
      + subst node'. repeat split. }
  destruct (put_framed tree codes' [] Hcodes) as [Hf _].
  now rewrite app_nil_r in Hf.
Qed.

Lemma transformer_frame_witness :
  let tree :=
    OtherNode (str "root") []
      [ OtherNode (str "paragraph") (str "text") [];
        CodeNode (block "title=x");
        OtherNode (str "blockquote") []
          [CodeNode (block "file=f.js#L2")] ] in
  let tree' :=
    OtherNode (str "root") []
      [ OtherNode (str "paragraph") (str "text") [];
        CodeNode (block "title=x");
        OtherNode (str "blockquote") []
          [CodeNode (set_value (block "file=f.js#L2") (text ["y"]))] ] in
  let w := one_file (str "/r") (str "/r/f.js") (text ["x"; "y"; ""]) in
  transform_tree default_options w tree = Ok tree' /\
  tree_framed tree tree' /\
  (forall node, In node (visit tree) -> find_fileMeta (meta node) = None ->
     prepare default_options w node = Ok None).
Proof.
  intros tree tree' w.
  assert (H : transform_tree default_options w tree = Ok tree')
    by (vm_compute; reflexivity).
  split; [exact H|]. exact (transformer_frame default_options w tree tree' H).
Defined.

(** ** The containment check *)

Section Containment.

Variable cwd : jsstring.

Lemma eqb_eq s : forall t, Js.eqb s t = true <-> s = t.
Proof.
  induction s as [|c s IH]; intros [|d t]; cbn [Js.eqb]; split;
    try congruence; try discriminate.
  - intros H. apply andb_true_iff in H as [Hc Hs].
    apply N.eqb_eq in Hc. apply IH in Hs. congruence.
  - intros H. inversion H; subst. rewrite N.eqb_refl. now apply IH.
Qed.

Lemma eqb_refl s : Js.eqb s s = true.
Proof. now apply eqb_eq. Qed.

Lemma eqb_neq s t : Js.eqb s t = false <-> s <> t.
Proof.
  split.
  - intros H E. apply eqb_eq in E. congruence.
  - intros H. destruct (Js.eqb s t) eqn:E; [|reflexivity].
    apply eqb_eq in E. contradiction.
Qed.

Lemma split_sep_cons c s :
  split Path.sep (c :: s) =
  if N.eqb c (ch "/") then [] :: split Path.sep s
  else cons_head c (split Path.sep s).
Proof.
  unfold split. cbn [split_go].
  change (startsWith (c :: s) Path.sep) with (N.eqb c (ch "/") && true).
  rewrite andb_true_r. reflexivity.
Qed.

Lemma split_sep_no_slash s :
  Forall (fun x => ~ In (ch "/") x) (split Path.sep s).
Proof.
  induction s as [|c s IH].
  - repeat constructor. intros [].
  - rewrite split_sep_cons. destruct (N.eqb_spec c (ch "/")) as [->|Hc].
    + constructor; [intros []|exact IH].
    + destruct (split Path.sep s) as [|x xs]; cbn [cons_head].
      * repeat constructor. intros [H|[]]. congruence.
      * inversion IH; subst. constructor; [|assumption].
        intros [H|H]; [congruence|contradiction].
Qed.

Lemma normalize_segments segs : forall acc,
  Forall (fun x => ~ In (ch "/") x) segs -> Forall segment acc ->
  Forall segment (Path.normalize_segs false acc segs).
Proof.
  induction segs as [|x xs IH]; intros acc Hsegs Hacc; cbn [Path.normalize_segs].
  - now apply Forall_rev.
  - inversion Hsegs; subst.
    destruct (Js.eqb x []) eqn:E0; cbn [orb]; [now apply IH|].
    destruct (Js.eqb x (str ".")) eqn:E1; [now apply IH|].
    destruct (Js.eqb x (str "..")) eqn:E2.
    + destruct acc as [|y acc]; [now apply IH|].
      inversion Hacc; subst.
      destruct (Js.eqb y (str "..")) eqn:E3.
      * apply eqb_eq in E3. destruct H3 as (_ & _ & H3 & _). contradiction.
      * now apply IH.
    + apply IH; [assumption|]. constructor; [|assumption].
      apply eqb_neq in E0, E1, E2. repeat split; assumption.
Qed.

Lemma resolve_segs_absolute p :
  Path.isAbsolute p = true ->
  Forall segment (fst (Path.resolve_segs cwd [p])) .
Proof.
  intros Hp. unfold Path.resolve_segs. cbn [rev app Path.resolve_acc].
  destruct p as [|c p]; [discriminate|]. cbn [Path.isAbsolute] in Hp.
  rewrite Hp. cbn [negb fst].
  apply normalize_segments; [apply split_sep_no_slash|constructor].
Qed.

Lemma strip_common_split a : forall b up down,
  Path.strip_common a b = (up, down) ->
  exists pre, a = pre ++ up /\ b = pre ++ down.
Proof.
  induction a as [|x a IH]; intros b up down H; cbn [Path.strip_common] in H.
  - inversion H. now exists [].
  - destruct b as [|y b]; [inversion H; now exists []|].
    destruct (Js.eqb x y) eqn:E.
    + apply eqb_eq in E. subst y.
      apply IH in H as (pre & -> & ->). now exists (x :: pre).
    + inversion H. now exists [].
Qed.

Lemma strip_common_same a : Path.strip_common a a = ([], []).
Proof.
  induction a as [|x a IH]; [reflexivity|].
  cbn [Path.strip_common]. now rewrite eqb_refl.
Qed.

(** The slash-joined segments below [rootDir] neither start with [../]
    nor with a slash. *)
Lemma join_segments_inside down :
  Forall segment down ->
  startsWith (join Path.sep down) (str ".." ++ Path.sep) = false /\
  Path.isAbsolute (join Path.sep down) = false.
Proof.
  intros H. destruct down as [|x rest]; [split; reflexivity|].
  inversion H as [|? ? (Hne & Hdot & Hdd & Hslash) _]; subst.
  assert (Hj : exists r, join Path.sep (x :: rest) = x ++ r /\
                         (r = [] \/ exists r', r = ch "/" :: r')).
  { destruct rest as [|y rest].
    - exists []. cbn [join]. rewrite app_nil_r. auto.
    - exists (Path.sep ++ join Path.sep (y :: rest)). split; [reflexivity|].
      right. eexists. reflexivity. }
  destruct Hj as (r & -> & Hr).
  destruct x as [|c1 x]; [contradiction|].
  assert (Hc1 : c1 <> ch "/") by (intros ->; apply Hslash; now left).
  split.
  - change (str ".." ++ Path.sep) with [ch "."; ch "."; ch "/"].
    cbn [app startsWith].
    destruct (N.eqb_spec c1 (ch ".")) as [->|]; [|reflexivity]. cbn [andb].
    destruct x as [|c2 x].
    + destruct Hr as [->|[r' ->]]; reflexivity.
    + cbn [app]. destruct (N.eqb_spec c2 (ch ".")) as [->|]; [|reflexivity].
      cbn [andb]. destruct x as [|c3 x]; [contradiction|].
      cbn [app]. destruct (N.eqb_spec c3 (ch "/")) as [->|]; [|reflexivity].
      exfalso. apply Hslash. right. right. now left.
  - cbn [app Path.isAbsolute]. now apply N.eqb_neq.
Qed.

(** What the check of lines 86 to 97 decides, in terms of the segments
    that lead from [rootDir] up ([up]) and then down ([down]) to the path:
    a path at or below [rootDir] is let through, a path that needs a step
    up is refused, except the path one step up from [rootDir]. *)
Lemma outside_rootDir_segments root abs up down :
  Path.isAbsolute root = true -> Path.isAbsolute abs = true ->
  Path.strip_common (fst (Path.resolve_segs cwd [root]))
                    (fst (Path.resolve_segs cwd [abs])) = (up, down) ->
  outside_rootDir cwd root abs =
  match up, down with
  | [], _ => false
  | [_], [] => false
  | _, _ => true
  end.
Proof.
  intros Hroot Habs Hstrip. unfold outside_rootDir.
  assert (Hne : Js.eqb root [] = false) by (destruct root; [discriminate|reflexivity]).
  rewrite Hne. cbn [orb]. unfold Path.relative.
  destruct (Js.eqb root abs) eqn:E.
  - apply eqb_eq in E. subst abs. rewrite strip_common_same in Hstrip.
    inversion Hstrip. reflexivity.
  - rewrite Hstrip.
    pose proof (resolve_segs_absolute abs Habs) as Hsegs.
    apply strip_common_split in Hstrip as (pre & _ & Hdown).
    rewrite Hdown in Hsegs. apply Forall_app in Hsegs as [_ Hsegs].
    destruct up as [|u up].
    + cbn [map app]. destruct (join_segments_inside down Hsegs) as [-> ->].
      reflexivity.
    + destruct up as [|u' up].
      * destruct down as [|d down]; reflexivity.
      * reflexivity.
Qed.

End Containment.

(** C2: the check of lines 86 to 97 lets the parent directory of [rootDir]
    through. The relative path from [/a/b] to [/a] is [..], which neither
    starts with [../] nor is absolute: with [rootDir] set to [/a/b], a
    document that names [file=/a] is given the content of [/a]. Paths
    further up or beside [rootDir] are refused, and paths below it are let
    through. *)
Theorem parent_of_rootDir_not_refused :
  Path.relative (str "/docs") (str "/a/b") (str "/a") = str ".." /\
  check_rootDir false (str "/docs") (str "/a/b") (str "/a") = Ok (str "/a") /\
  transformer (mkOptions false false (Some (str "/a/b")) false)
    (one_file (str "/docs") (str "/a") (text ["secret"]))
    [block "file=/a"]
  = Ok [set_value (block "file=/a") (text ["secret"])] /\
  check_rootDir false (str "/docs") (str "/a/b") (str "/a/c")
    = Throw (OutsideRootDir (str "/a/c") (str "/a/b")) /\
  check_rootDir false (str "/docs") (str "/a/b/c") (str "/a")
    = Throw (OutsideRootDir (str "/a") (str "/a/b/c")) /\
  check_rootDir false (str "/docs") (str "/a/b") (str "/a/b/c/d")
    = Ok (str "/a/b/c/d").
Proof. vm_compute. repeat split; reflexivity. Qed.

(** ** The tests of the repository

    [test.js] runs the plugin on one block whose metadata is
    [file=./__fixtures__/say-#-hi.js] followed by a line section, in a
    document of the working directory; the value of the block is what the
    snapshots show between the fences. *)

Example test_basic_file_import :
  test_run default_options "" =
  Ok [text [ "console.log('Hello remark-code-import!');";
             "console.log('This is another line...');";
             "console.log('This is the last line');";
             "console.log('Oops, here is another');" ]].
Proof. vm_compute. reflexivity. Qed.

Example test_line_numbers :
  test_run default_options "#L2-L3" =
  Ok [text [ "console.log('This is another line...');";
             "console.log('This is the last line');" ]].
Proof. vm_compute. reflexivity. Qed.

Example test_single_line_number :
  test_run default_options "#L1" =
  Ok [text [ "console.log('Hello remark-code-import!');" ]].
Proof. vm_compute. reflexivity. Qed.

Example test_only_following_lines :
  test_run default_options "#-L2" =
  Throw (ReadFileFailed (str "/repo/__fixtures__/say-#-hi.js#-L2")).
Proof. vm_compute. reflexivity. Qed.

Example test_line_number_and_following :
  test_run default_options "#L2-" =
  Ok [text [ "console.log('This is another line...');";
             "console.log('This is the last line');";
             "console.log('Oops, here is another');" ]].
Proof. vm_compute. reflexivity. Qed.

Example test_preserve_trailing_newline :
  test_run (mkOptions true false None false) "" = Ok [say_hi].
Proof. vm_compute. reflexivity. Qed.

(** * Further properties of the program *)

(** ** The tokens of the metadata *)

Lemma split_meta_go_nonempty s : forall prev, split_meta_go prev s <> [].
Proof.
  induction s as [|c s IH]; intros prev; cbn [split_meta_go]; [discriminate|].
  destruct (_ && _); [discriminate|].
  specialize (IH (Some c)). destruct (split_meta_go (Some c) s);
    [contradiction|discriminate].
Qed.

Lemma join_cons_head_sep sep c l :
  l <> [] -> join sep (cons_head c l) = c :: join sep l.
Proof. destruct l as [|x [|y l]]; [contradiction| |]; reflexivity. Qed.

Lemma join_cons_nil_sep sep l : l <> [] -> join sep ([] :: l) = sep ++ join sep l.
Proof. destruct l; [contradiction|reflexivity]. Qed.

Lemma join_split_meta_go s : forall prev,
  join (str " ") (split_meta_go prev s) = s.
Proof.
  induction s as [|c s IH]; intros prev; cbn [split_meta_go]; [reflexivity|].
  destruct (N.eqb_spec c (ch " ")) as [->|Hc]; cbn [andb].
  - destruct (negb _).
    + rewrite join_cons_nil_sep by apply split_meta_go_nonempty.
      now rewrite IH.
    + rewrite join_cons_head_sep by apply split_meta_go_nonempty.
      now rewrite IH.
  - rewrite join_cons_head_sep by apply split_meta_go_nonempty. now rewrite IH.
Qed.

(** After a space, a token is cut as at the start of the metadata. *)
Lemma split_meta_go_after_space t :
  split_meta_go (Some (ch " ")) t = split_meta_go None t.
Proof. destruct t; reflexivity. Qed.

Lemma cons_head_single c l t :
  l <> [] -> cons_head c l = [t] -> exists t', t = c :: t' /\ l = [t'].
Proof.
  destruct l as [|x [|y l]]; [contradiction| |]; intros _ H; inversion H.
  now exists x.
Qed.

(** The first token is not cut again in its place, nor are the others at
    the start of a line of metadata. *)
Lemma split_meta_go_tokens s : forall prev,
  match split_meta_go prev s with
  | h :: ts =>
      split_meta_go prev h = [h] /\
      Forall (fun t => split_meta_go None t = [t]) ts
  | [] => False
  end.
Proof.
  induction s as [|c s IH]; intros prev; cbn [split_meta_go].
  - split; [reflexivity|constructor].
  - specialize (IH (Some c)).
    destruct (split_meta_go (Some c) s) as [|h ts]; [contradiction|].
    destruct IH as [Hh Hts].
    destruct (N.eqb c (ch " ") && negb _) eqn:E.
    + split; [reflexivity|]. constructor; [|exact Hts].
      apply andb_true_iff in E as [E _]. apply N.eqb_eq in E. subst c.
      now rewrite <- split_meta_go_after_space.
    + cbn [cons_head]. split; [|exact Hts].
      cbn [split_meta_go]. rewrite E, Hh. reflexivity.
Qed.

Lemma split_meta_whole m : Forall (fun t => split_meta t = [t]) (split_meta m).
Proof.
  unfold split_meta. pose proof (split_meta_go_tokens m None) as H.
  destruct (split_meta_go None m) as [|h ts]; [contradiction|].
  destruct H as [Hh Hts]. now constructor.
Qed.

(** X1: the tokens of the metadata, joined with single spaces, are the
    metadata; no token can be cut further. *)
Theorem split_meta_tokens (m : jsstring) :
  join (str " ") (split_meta m) = m /\
  Forall (fun t => split_meta t = [t]) (split_meta m).
Proof.
  split; [apply join_split_meta_go|apply split_meta_whole].
Qed.

(** A token in front of a space that no backslash escapes is cut off. *)
Lemma split_meta_go_first t : forall prev rest,
  split_meta_go prev t = [t] ->
  last_unit prev t <> Some (ch "\") ->
  split_meta_go prev (t ++ ch " " :: rest) =
  t :: split_meta_go (Some (ch " ")) rest.
Proof.
  induction t as [|c t IH]; intros prev rest Ht Hlast.
  - cbn [app split_meta_go]. rewrite N.eqb_refl. cbn [andb].
    assert (E : match prev with
                | Some b => N.eqb b (ch "\")
                | None => false
                end = false).
    { destruct prev as [b|]; [|reflexivity]. cbn in Hlast.
      apply N.eqb_neq. congruence. }
    rewrite E. reflexivity.
  - cbn [app split_meta_go] in *.
    destruct (N.eqb c (ch " ") && negb _) eqn:E; [discriminate|].
    apply cons_head_single in Ht as (t' & Ht' & Hs);
      [|apply split_meta_go_nonempty].
    inversion Ht'; subst t'.
    rewrite (IH (Some c) rest Hs).
    + reflexivity.
    + unfold last_unit in *. cbn [rev] in Hlast.
      destruct (rev t) as [|x r]; [exact Hlast|exact Hlast].
Qed.

(** X2: a found annotation is a token of the metadata that starts with
    [file=], so it is not empty and holds no unescaped space; and the first
    annotation of the metadata is the one found, whatever follows it. *)
Theorem find_fileMeta_first (m : option jsstring) :
  (forall t, find_fileMeta m = Some t ->
     startsWith t (str "file=") = true /\ t <> [] /\ split_meta t = [t] /\
     In t (split_meta (match m with Some x => x | None => [] end))) /\
  (forall t rest,
     startsWith t (str "file=") = true -> split_meta t = [t] ->
     last_unit None t <> Some (ch "\") ->
     find_fileMeta (Some (t ++ str " " ++ rest)) = Some t).
Proof.
  split.
  - intros t H. unfold find_fileMeta in H. apply find_some in H as [Hin Hs].
    repeat split; try assumption.
    + intros ->. discriminate.
    + pose proof (split_meta_whole (match m with Some x => x | None => [] end))
        as Hall.
      rewrite Forall_forall in Hall. now apply Hall.
  - intros t rest Hs Ht Hlast. unfold find_fileMeta, split_meta.
    change (t ++ str " " ++ rest) with (t ++ ch " " :: rest).
    rewrite split_meta_go_first by assumption.
    cbn [find]. now rewrite Hs.
Qed.

Lemma find_fileMeta_first_witness :
  find_fileMeta (Some (str "file=a.js#L2" ++ str " " ++ str "file=b.js title=x"))
  = Some (str "file=a.js#L2").
Proof.
  apply (proj2 (find_fileMeta_first None)); try reflexivity.
  vm_compute. discriminate.
Defined.

Lemma escape_spaces_head q :
  match escape_spaces q with
  | c :: _ => c <> ch " "
  | [] => True
  end.
Proof.
  destruct q as [|c q]; [exact I|]. unfold escape_spaces. cbn [flat_map].
  destruct (N.eqb_spec c (ch " ")); cbn [app]; [discriminate|assumption].
Qed.

Lemma unescape_spaces_cons c s :
  match s with d :: _ => d <> ch " " | [] => True end ->
  unescape_spaces (c :: s) = c :: unescape_spaces s.
Proof.
  destruct s as [|d s]; intros H; [reflexivity|].
  cbn [unescape_spaces]. apply N.eqb_neq in H. now rewrite H, andb_false_r.
Qed.

Lemma unescape_escape q : unescape_spaces (escape_spaces q) = q.
Proof.
  induction q as [|c q IH]; [reflexivity|].
  change (escape_spaces (c :: q))
    with ((if N.eqb c (ch " ") then [ch "\"; ch " "] else [c]) ++ escape_spaces q).
  destruct (N.eqb_spec c (ch " ")) as [->|Hc].
  - cbn [app unescape_spaces]. rewrite !N.eqb_refl. cbn [andb]. now rewrite IH.
  - cbn [app]. rewrite unescape_spaces_cons by apply escape_spaces_head.
    now rewrite IH.
Qed.

Lemma split_meta_go_escape q : forall prev,
  split_meta_go prev (escape_spaces q) = [escape_spaces q].
Proof.
  induction q as [|c q IH]; intros prev; [reflexivity|].
  change (escape_spaces (c :: q))
    with ((if N.eqb c (ch " ") then [ch "\"; ch " "] else [c]) ++ escape_spaces q).
  destruct (N.eqb_spec c (ch " ")) as [->|Hc].
  - cbn [app split_meta_go]. rewrite !N.eqb_refl.
    change (N.eqb (ch "\") (ch " ")) with false. cbn [andb negb].
    now rewrite IH.
  - cbn [app split_meta_go]. apply N.eqb_neq in Hc. rewrite Hc. cbn [andb].
    now rewrite IH.
Qed.

(** X3: a path written with a backslash in front of each of its spaces
    stays in one token with its [file=], and the program reads it back as
    the path. *)
Theorem escaped_path_round_trip (q : jsstring) :
  find_fileMeta (Some (str "file=" ++ escape_spaces q))
    = Some (str "file=" ++ escape_spaces q) /\
  unescape_spaces (escape_spaces q) = q.
Proof.
  split; [|apply unescape_escape].
  unfold find_fileMeta, split_meta.
  change (str "file=" ++ escape_spaces q) with (escape_spaces (str "file=" ++ q)).
  rewrite split_meta_go_escape. cbn [find].
  change (escape_spaces (str "file=" ++ q)) with (str "file=" ++ escape_spaces q).
  now rewrite startsWith_app.
Qed.

(** ** The root directory placeholder *)

Lemma substitution_plain matched after x : forall y,
  ~ In (ch "$") x ->
  substitution matched after (x ++ y) = x ++ substitution matched after y.
Proof.
  induction x as [|c x IH]; intros y Hx; [reflexivity|].
  cbn [app substitution].
  destruct (N.eqb_spec c (ch "$")) as [->|Hc]; [exfalso; apply Hx; now left|].
  rewrite IH; [reflexivity|]. intros H. apply Hx. now right.
Qed.

Lemma replace_rootDir_plain root rest :
  ~ In (ch "$") root ->
  replace_rootDir (str "<rootDir>" ++ rest) root = root ++ rest.
Proof.
  intros Hroot. unfold replace_rootDir.
  rewrite startsWith_app, skipn_prefix.
  rewrite <- (app_nil_r root) at 1.
  rewrite substitution_plain by exact Hroot. cbn [substitution].
  now rewrite app_nil_r.
Qed.

(** X4: with a root directory free of [$], a path that starts with
    [<rootDir>] has that start, and nothing else, replaced by the root
    directory; a path that does not start with it is left as it is, also
    where it holds [<rootDir>] further on. *)
Theorem replace_rootDir_placeholder (root rest p : jsstring) :
  ~ In (ch "$") root ->
  replace_rootDir (str "<rootDir>" ++ rest) root = root ++ rest /\
  (startsWith p (str "<rootDir>") = false -> replace_rootDir p root = p).
Proof.
  intros Hroot. split; [now apply replace_rootDir_plain|].
  intros Hp. unfold replace_rootDir. now rewrite Hp.
Qed.

Lemma replace_rootDir_placeholder_witness :
  replace_rootDir (str "<rootDir>" ++ str "/a/<rootDir>.js") (str "/repo")
  = str "/repo" ++ str "/a/<rootDir>.js" /\
  (startsWith (str "./<rootDir>/a.js") (str "<rootDir>") = false ->
   replace_rootDir (str "./<rootDir>/a.js") (str "/repo") = str "./<rootDir>/a.js").
Proof.
  apply replace_rootDir_placeholder. vm_compute. intuition discriminate.
Defined.

Lemma substitution_id matched after x :
  ~ In (ch "$") x -> substitution matched after x = x.
Proof.
  intros Hx. rewrite <- (app_nil_r x) at 1.
  rewrite substitution_plain by exact Hx. cbn [substitution].
  apply app_nil_r.
Qed.

(** X5: the root directory is used as a replacement pattern: where it
    holds [$&] the placeholder itself comes back, and of [$$] one [$] is
    left. *)
Theorem replace_rootDir_dollar (a b rest : jsstring) :
  ~ In (ch "$") a -> ~ In (ch "$") b ->
  replace_rootDir (str "<rootDir>" ++ rest) (a ++ str "$&" ++ b)
    = a ++ str "<rootDir>" ++ b ++ rest /\
  replace_rootDir (str "<rootDir>" ++ rest) (a ++ str "$$" ++ b)
    = a ++ str "$" ++ b ++ rest.
Proof.
  intros Ha Hb. unfold replace_rootDir.
  rewrite startsWith_app, skipn_prefix. split.
  - rewrite substitution_plain by exact Ha.
    change (str "$&" ++ b) with (ch "$" :: ch "&" :: b).
    cbn [substitution]. rewrite !N.eqb_refl.
    change (N.eqb (ch "&") (ch "$")) with false. cbn iota.
    rewrite substitution_id by exact Hb. now rewrite <- !app_assoc.
  - rewrite substitution_plain by exact Ha.
    change (str "$$" ++ b) with (ch "$" :: ch "$" :: b).
    cbn [substitution]. rewrite !N.eqb_refl.
    rewrite substitution_id by exact Hb.
    change (str "$" ++ b ++ rest) with (ch "$" :: b ++ rest).
    now rewrite <- !app_assoc.
Qed.

Lemma replace_rootDir_dollar_witness :
  replace_rootDir (str "<rootDir>" ++ str "/f.js") (str "/a" ++ str "$&" ++ str "/b")
    = str "/a" ++ str "<rootDir>" ++ str "/b" ++ str "/f.js" /\
  replace_rootDir (str "<rootDir>" ++ str "/f.js") (str "/a" ++ str "$$" ++ str "/b")
    = str "/a" ++ str "$" ++ str "/b" ++ str "/f.js".
Proof.
  apply replace_rootDir_dollar; vm_compute; intuition discriminate.
Defined.

(** ** Outcomes of the transformer *)

Section Outcomes.

Variable options : CodeImportOptions.
Variable w : world.

Lemma prepare_all_app a : forall b,
  prepare_all options w (a ++ b) =
  (ja <- prepare_all options w a ;;
   jb <- prepare_all options w b ;;
   Ok (ja ++ jb)).
Proof.
  induction a as [|node a IH]; intros b; cbn [app prepare_all bind].
  - destruct (prepare_all options w b); reflexivity.
  - destruct (prepare options w node) as [i|]; [|reflexivity]. cbn [bind].
    rewrite IH. destruct (prepare_all options w a) as [ja|]; [|reflexivity].
    cbn [bind]. destruct (prepare_all options w b); reflexivity.
Qed.

Lemma run_all_app ja : forall jb,
  run_all options w (ja ++ jb) =
  (ra <- run_all options w ja ;;
   rb <- run_all options w jb ;;
   Ok (ra ++ rb)).
Proof.
  induction ja as [|[node [imp|]] ja IH]; intros jb; cbn [app run_all bind].
  - destruct (run_all options w jb); reflexivity.
  - destruct (run options w node imp) as [node'|]; [|reflexivity]. cbn [bind].
    rewrite IH. destruct (run_all options w ja) as [ra|]; [|reflexivity].
    cbn [bind]. destruct (run_all options w jb); reflexivity.
  - rewrite IH. destruct (run_all options w ja) as [ra|]; [|reflexivity].
    cbn [bind]. destruct (run_all options w jb); reflexivity.
Qed.

Lemma transformer_step node rest i node' rest' :
  prepare options w node = Ok i ->
  transformer options w rest = Ok rest' ->
  match i with
  | None => node' = node
  | Some imp => run options w node imp = Ok node'
  end ->
  transformer options w (node :: rest) = Ok (node' :: rest').
Proof.
  unfold transformer. intros Hp Hr Hi. cbn [prepare_all]. rewrite Hp.
  cbn [bind]. destruct (prepare_all options w rest) as [jobs|]; [|discriminate].
  cbn [bind] in *. destruct i as [imp|]; cbn [run_all].
  - rewrite Hi. cbn [bind]. now rewrite Hr.
  - rewrite Hr. cbn [bind]. now subst.
Qed.

Lemma transformer_cons_throw node rest e :
  transformer options w (node :: rest) = Throw e ->
  prepare options w node = Throw e \/
  (exists imp, prepare options w node = Ok (Some imp) /\
               run options w node imp = Throw e) \/
  transformer options w rest = Throw e.
Proof.
  unfold transformer. cbn [prepare_all].
  destruct (prepare options w node) as [i|e'] eqn:Ep; cbn [bind];
    [|intros H; inversion H; now left].
  destruct (prepare_all options w rest) as [jobs|e'] eqn:Ea; cbn [bind];
    [|intros H; inversion H; right; now right].
  destruct i as [imp|]; cbn [run_all].
  - destruct (run options w node imp) as [node'|e'] eqn:Er; cbn [bind];
      [|intros H; inversion H; subst; right; left; eauto].
    destruct (run_all options w jobs) as [nodes|e']; cbn [bind];
      [discriminate|intros H; inversion H; right; now right].
  - destruct (run_all options w jobs) as [nodes|e']; cbn [bind];
      [discriminate|intros H; inversion H; right; now right].
Qed.

Lemma prepare_throw node e :
  prepare options w node = Throw e -> justified options w [node] e.
Proof.
  unfold prepare. destruct (find_fileMeta (meta node)) as [m|] eqn:Em;
    [|discriminate].
  destruct (truthy_str (dirname w)) eqn:Ed; cbn [negb].
  2:{ intros H. inversion H. cbn. split; [exact Ed|].
      constructor. unfold annotated. now rewrite Em. }
  destruct (parse_reference m) as [ref|e'] eqn:Eparse; cbn [bind].
  - unfold check_rootDir.
    destruct (allowImportingFromOutside options) eqn:Ea; cbn [negb andb bind];
      [discriminate|].
    destruct (outside_rootDir _ _ _) eqn:Eo; cbn [bind]; [|discriminate].
    intros H. inversion H. cbn. auto.
  - intros H. inversion H; subst e'.
    assert (He : e = UnableToParse m).
    { unfold parse_reference in Eparse.
      destruct (exec fileMeta_re m) as [g|]; [|now inversion Eparse].
      destruct (g_path g) as [[|c q]|]; now inversion Eparse. }
    subst e. cbn. split; [|exact Eparse].
    exists node. split; [now left|exact Em].
Qed.

Lemma justified_cons node rest e :
  justified options w [node] e \/ justified options w rest e ->
  justified options w (node :: rest) e.
Proof.
  destruct e as [| |m|a r|a]; cbn; try tauto.
  - intros [[Hd H]|[Hd H]]; (split; [exact Hd|]).
    + inversion H; subst; [now constructor|]. inversion H1.
    + now constructor 2.
  - intros [[(n & Hin & Hm) Hp]|[(n & Hin & Hm) Hp]]; (split; [|exact Hp]);
      exists n; split; try exact Hm.
    + destruct Hin as [->|[]]. now left.
    + now right.
Qed.

End Outcomes.

(** X6: every error of the transformer has its reason in the document
    and the world. It is never the error of the set-up; [NotVFile] means
    that the document has no directory and some block is annotated;
    [UnableToParse] carries the annotation of a block, which the pattern
    does not match; [OutsideRootDir] is only raised when imports from
    outside are not allowed, for a path that the check refuses;
    [ReadFileFailed] carries a path that cannot be read. *)
Theorem transformer_errors (options : CodeImportOptions) (w : world)
    (codes : list Code) (e : error) :
  transformer options w codes = Throw e -> justified options w codes e.
Proof.
  induction codes as [|node rest IH]; intros H; [discriminate|].
  apply transformer_cons_throw in H as [H|[(imp & Hp & Hr)|H]].
  - apply justified_cons. left. now apply prepare_throw.
  - unfold run in Hr. destruct (readFile w (fileAbsPath imp)) eqn:E;
      [discriminate|]. inversion Hr. exact E.
  - apply justified_cons. right. now apply IH.
Qed.

Lemma transformer_errors_witness :
  justified default_options
    (one_file (str "/r") (str "/r/f.js") (text ["x"]))
    [block "file=../g.js"]
    (OutsideRootDir (str "/g.js") (str "/r")).
Proof.
  apply transformer_errors. vm_compute. reflexivity.
Defined.

Lemma transformer_unannotated (options : CodeImportOptions) (w : world)
    (codes : list Code) :
  Forall (fun node => find_fileMeta (meta node) = None) codes ->
  transformer options w codes = Ok codes.
Proof.
  induction 1 as [|node rest Hn Hrest IH]; [reflexivity|].
  apply (transformer_step options w node rest None); auto.
  now apply prepare_no_annotation.
Qed.

(** Writing back the states that [visit] reported changes nothing. *)
Lemma put_visit tree : forall rest,
  put tree (visit tree ++ rest) = (tree, rest).
Proof.
  induction tree as [c|type other children IH] using Node_induction;
    intros rest; [reflexivity|].
  rewrite put_other. cbn [visit].
  assert (Hall : put_all children (flat_map visit children ++ rest)
                 = (children, rest)).
  { induction children as [|x xs IHxs]; [reflexivity|].
    inversion IH as [|? ? IHx IHrest]; subst.
    cbn [flat_map put_all]. rewrite <- app_assoc, IHx.
    now rewrite (IHxs IHrest). }
  now rewrite Hall.
Qed.

(** X7: a document without an annotated block is left as it is, and the
    transformation of it succeeds in every world, whether the document has
    a directory or not. *)
Theorem transformer_no_annotation (options : CodeImportOptions) (w : world)
    (tree : Node) :
  Forall (fun node => find_fileMeta (meta node) = None) (visit tree) ->
  transform_tree options w tree = Ok tree.
Proof.
  intros H. unfold transform_tree.
  rewrite (transformer_unannotated options w _ H). cbn [bind].
  rewrite <- (app_nil_r (visit tree)). now rewrite put_visit.
Qed.

Lemma transformer_no_annotation_witness :
  let tree :=
    OtherNode (str "root") []
      [ CodeNode (block "title=x");
        OtherNode (str "list") [] [CodeNode (mkCode None None (text ["a"]) [])] ] in
  transform_tree default_options (mkWorld [] None (fun _ => None)) tree = Ok tree.
Proof.
  intros tree. apply transformer_no_annotation. repeat constructor.
Defined.

(** X8: when the document has no directory, an annotated block anywhere
    in it makes the transformation fail with [NotVFile], before any
    annotation is parsed or any file read. *)
Theorem transformer_not_vfile (options : CodeImportOptions) (w : world)
    (codes : list Code) :
  truthy_str (dirname w) = false -> Exists annotated codes ->
  transformer options w codes = Throw NotVFile.
Proof.
  intros Hd H. unfold transformer.
  assert (Hp : prepare_all options w codes = Throw NotVFile).
  { induction codes as [|node rest IH]; [inversion H|].
    cbn [prepare_all]. unfold prepare at 1.
    destruct (find_fileMeta (meta node)) as [m|] eqn:Em.
    - now rewrite Hd.
    - cbn [bind]. rewrite IH; [reflexivity|].
      inversion H; subst; [|assumption].
      unfold annotated in *. congruence. }
  now rewrite Hp.
Qed.

Lemma transformer_not_vfile_witness :
  transformer default_options (mkWorld (str "/r") None (fun _ => Some []))
    [block "title=x"; block "file=f.js"]
  = Throw NotVFile.
Proof.
  apply transformer_not_vfile; [reflexivity|].
  constructor 2. constructor. vm_compute. discriminate.
Defined.

(** X9: the blocks are processed independently of each other: the
    transformation of two documents one after the other succeeds exactly
    when it succeeds on each, with the results one after the other. *)
Theorem transformer_app (options : CodeImportOptions) (w : world)
    (a b r : list Code) :
  transformer options w (a ++ b) = Ok r <->
  exists ra rb,
    transformer options w a = Ok ra /\ transformer options w b = Ok rb /\
    r = ra ++ rb.
Proof.
  unfold transformer. rewrite prepare_all_app.
  destruct (prepare_all options w a) as [ja|ea]; cbn [bind].
  2:{ split; [discriminate|]. intros (ra & rb & H & _). discriminate. }
  destruct (prepare_all options w b) as [jb|eb]; cbn [bind].
  2:{ split; [discriminate|]. intros (ra & rb & _ & H & _). discriminate. }
  rewrite run_all_app.
  destruct (run_all options w ja) as [ra|ea]; cbn [bind].
  2:{ split; [discriminate|]. intros (ra & rb & H & _). discriminate. }
  destruct (run_all options w jb) as [rb|eb]; cbn [bind].
  2:{ split; [discriminate|]. intros (ra' & rb & _ & H & _). discriminate. }
  split.
  - intros H. inversion H. now exists ra, rb.
  - intros (ra' & rb' & Ha & Hb & ->). inversion Ha. inversion Hb. reflexivity.
Qed.

(** X10: the transformation is idempotent: on its own result, in the
    same world, it succeeds and changes nothing. *)
Theorem transformer_idempotent (options : CodeImportOptions) (w : world)
    (codes codes' : list Code) :
  transformer options w codes = Ok codes' ->
  transformer options w codes' = Ok codes'.
Proof.
  revert codes'. induction codes as [|node rest IH]; intros codes' H.
  - now inversion H.
  - apply transformer_cons in H as (i & node' & rest' & Hp & Ht & -> & Hi).
    apply (transformer_step options w node' rest' i); [|now apply IH|].
    + destruct i as [imp|]; [|now subst].
      apply run_sets_value in Hi as [v ->]. exact Hp.
    + destruct i as [imp|]; [|reflexivity].
      unfold run in *. destruct (readFile w (fileAbsPath imp)); [|discriminate].
      inversion Hi.
      destruct (removeRedundantIndentations options); reflexivity.
Qed.

Lemma transformer_idempotent_witness :
  let w := one_file (str "/r") (str "/r/f.js") (text ["x"; "y"; ""]) in
  let codes' := [block "title=x"; set_value (block "file=f.js#L2") (text ["y"])] in
  transformer default_options w codes' = Ok codes'.
Proof.
  intros w codes'.
  apply (transformer_idempotent default_options w
           [block "title=x"; block "file=f.js#L2"]).
  vm_compute. reflexivity.
Defined.

(** ** The imported text *)

Lemma join_app sep x y :
  x <> [] -> y <> [] -> join sep (x ++ y) = join sep x ++ sep ++ join sep y.
Proof.
  intros Hx Hy. induction x as [|a x IH]; [contradiction|].
  destruct x as [|b x].
  - cbn [app]. destruct y; [contradiction|reflexivity].
  - change (join sep ((a :: b :: x) ++ y))
      with (a ++ sep ++ join sep ((b :: x) ++ y)).
    rewrite IH by discriminate.
    change (join sep (a :: b :: x)) with (a ++ sep ++ join sep (b :: x)).
    now rewrite <- !app_assoc.
Qed.

Lemma join_middle sep pre sel post :
  exists a b, join sep (pre ++ sel ++ post) = a ++ join sep sel ++ b.
Proof.
  destruct sel as [|s sel].
  - exists (join sep (pre ++ post)), []. cbn [app join]. now rewrite app_nil_r.
  - destruct pre as [|p pre]; destruct post as [|q post].
    + exists [], []. cbn [app]. now rewrite !app_nil_r.
    + exists [], (sep ++ join sep (q :: post)). cbn [app].
      change (s :: sel ++ q :: post) with ((s :: sel) ++ q :: post).
      now rewrite join_app by discriminate.
    + exists (join sep (p :: pre) ++ sep), []. rewrite !app_nil_r.
      rewrite join_app by discriminate. now rewrite <- !app_assoc.
    + exists (join sep (p :: pre) ++ sep), (sep ++ join sep (q :: post)).
      rewrite join_app by discriminate.
      rewrite (join_app sep (s :: sel)) by discriminate.
      now rewrite <- !app_assoc.
Qed.

(** X11: whatever the line selection, the extracted text is a piece of
    the file text: the extractor adds nothing and reorders nothing. *)
Theorem extract_substring (content : jsstring) (from : option Z)
    (dash : bool) (to : option Z) (preserve : bool) :
  exists a b,
    content = a ++ extractLines content from dash to preserve ++ b.
Proof.
  unfold extractLines, slice.
  set (lines := split EOL content).
  match goal with
  | |- context [firstn ?n (skipn ?k lines)] =>
      destruct (join_middle LF (firstn k lines) (firstn n (skipn k lines))
                  (skipn n (skipn k lines))) as (a & b & H);
      exists a, b; rewrite <- H, !firstn_skipn
  end.
  unfold lines. now rewrite join_split.
Qed.

Lemma split_EOL_no_LF s : Forall (fun l => ~ In 10%N l) (split EOL s).
Proof.
  induction s as [|c s IH].
  - repeat constructor. intros [].
  - destruct (N.eq_dec c 10) as [->|Hc].
    + rewrite split_cons_LF. constructor; [intros []|exact IH].
    + rewrite split_cons_other by exact Hc.
      destruct (split EOL s) as [|x xs]; cbn [cons_head].
      * repeat constructor. intros [H|[]]. congruence.
      * inversion IH; subst. constructor; [|assumption].
        intros [H|H]; [congruence|contradiction].
Qed.

Lemma line_feeds_app a b : line_feeds (a ++ b) = (line_feeds a + line_feeds b)%nat.
Proof. apply count_occ_app. Qed.

Lemma line_feeds_join sel :
  Forall (fun l => ~ In 10%N l) sel ->
  line_feeds (join LF sel) = pred (length sel).
Proof.
  induction 1 as [|x sel Hx Hsel IH]; [reflexivity|].
  assert (H0 : line_feeds x = 0%nat) by now apply count_occ_not_In.
  destruct sel as [|y sel]; [exact H0|].
  change (join LF (x :: y :: sel)) with (x ++ LF ++ join LF (y :: sel)).
  rewrite !line_feeds_app, H0, IH. reflexivity.
Qed.

Lemma Forall_slice {A} (P : A -> Prop) s e l :
  Forall P l -> Forall P (slice s e l).
Proof.
  intros H. unfold slice. rewrite Forall_forall in *. intros x Hx.
  apply H. rewrite <- (firstn_skipn (Z.to_nat (if (s <? 0)%Z
      then Z.max (Z.of_nat (length l) + s) 0
      else Z.min s (Z.of_nat (length l)))) l).
  apply in_or_app. right.
  match type of Hx with
  | In x (firstn ?n ?t) => rewrite <- (firstn_skipn n t)
  end.
  apply in_or_app. now left.
Qed.

Lemma slice_length {A} s e (l : list A) :
  (0 <= s /\ 0 <= e)%Z \/ (s < 0 /\ e < 0)%Z ->
  (length (slice s e l) <= Z.to_nat (Z.max (e - s) 0))%nat.
Proof.
  intros H. unfold slice. rewrite length_firstn, length_skipn.
  destruct (Z.ltb_spec s 0); destruct (Z.ltb_spec e 0); lia.
Qed.

Lemma start_line_nonzero from : start_line from <> 0%Z.
Proof.
  unfold start_line. destruct from as [n|]; [|discriminate].
  destruct (Z.eqb_spec n 0); [discriminate|assumption].
Qed.

(** X12: a reference without a dash yields a text without a line feed,
    that is one line at most; a range from line [n] to line [m] yields
    [m - n + 1] lines at most. *)
Theorem extract_line_count (content : jsstring) (from to : option Z)
    (n m : Z) (preserve : bool) :
  line_feeds (extractLines content from false to preserve) = 0%nat /\
  ((1 <= n)%Z -> (1 <= m)%Z ->
   (line_feeds (extractLines content (Some n) true (Some m) preserve)
    <= Z.to_nat (m - n))%nat).
Proof.
  split.
  - unfold extractLines, end_line. cbn [negb].
    rewrite line_feeds_join by apply Forall_slice, split_EOL_no_LF.
    pose proof (start_line_nonzero from) as H0.
    match goal with
    | |- pred (length (slice ?s ?e ?l)) = 0%nat =>
        pose proof (slice_length s e l) as H;
        assert (Hl : (length (slice s e l) <= 1)%nat) by (etransitivity; [apply H|]; lia)
    end.
    unfold jsstring, code_unit in *. lia.
  - intros Hn Hm. unfold extractLines, end_line, start_line, truthy_num.
    destruct (Z.eqb_spec n 0); [lia|]. destruct (Z.eqb_spec m 0); [lia|].
    cbn [negb].
    rewrite line_feeds_join by apply Forall_slice, split_EOL_no_LF.
    match goal with
    | |- (pred (length (slice ?s ?e ?l)) <= _)%nat =>
        pose proof (slice_length s e l) as H;
        assert (Hl : (length (slice s e l) <= Z.to_nat (Z.max (m - (n - 1)) 0))%nat)
          by (apply H; lia)
    end.
    unfold jsstring, code_unit in *. lia.
Qed.

Lemma extract_line_count_witness :
  line_feeds (extractLines (text ["a"; "b"; "c"; "d"]) None false None false)
    = 0%nat /\
  ((1 <= 2)%Z -> (1 <= 3)%Z ->
   (line_feeds (extractLines (text ["a"; "b"; "c"; "d"]) (Some 2%Z) true
                  (Some 3%Z) false)
    <= Z.to_nat (3 - 2))%nat).
Proof.
  exact (extract_line_count (text ["a"; "b"; "c"; "d"]) None None 2 3 false).
Defined.

(** ** Imports from below the root directory *)

Section Below.

Variable cwd : jsstring.

Lemma split_sep_nonempty s : split Path.sep s <> [].
Proof. apply split_nonempty. Qed.

Lemma split_sep_app x y :
  split Path.sep (x ++ ch "/" :: y) = split Path.sep x ++ split Path.sep y.
Proof.
  induction x as [|c x IH]; cbn [app].
  - rewrite split_sep_cons, N.eqb_refl. reflexivity.
  - rewrite !split_sep_cons, IH. destruct (N.eqb c (ch "/")); [reflexivity|].
    apply cons_head_app, split_sep_nonempty.
Qed.

Lemma split_sep_segment name :
  ~ In (ch "/") name -> split Path.sep name = [name].
Proof.
  induction name as [|c name IH]; intros H; [reflexivity|].
  rewrite split_sep_cons.
  destruct (N.eqb_spec c (ch "/")) as [->|Hc]; [exfalso; apply H; now left|].
  rewrite IH; [reflexivity|]. intros Hin. apply H. now right.
Qed.

Lemma split_sep_join names :
  names <> [] -> Forall segment names ->
  split Path.sep (join Path.sep names) = names.
Proof.
  intros Hne H. induction H as [|x names Hx Hnames IH]; [contradiction|].
  destruct Hx as (_ & _ & _ & Hx).
  destruct names as [|y names]; [now apply split_sep_segment|].
  change (join Path.sep (x :: y :: names))
    with (x ++ ch "/" :: join Path.sep (y :: names)).
  rewrite split_sep_app, split_sep_segment, IH by (assumption || discriminate).
  reflexivity.
Qed.

Lemma normalize_segs_app f xs : forall acc ys,
  Path.normalize_segs f acc (xs ++ ys) =
  Path.normalize_segs f (rev (Path.normalize_segs f acc xs)) ys.
Proof.
  induction xs as [|x xs IH]; intros acc ys; cbn [app Path.normalize_segs].
  - now rewrite rev_involutive.
  - destruct (Js.eqb x [] || Js.eqb x (str ".")); [apply IH|].
    destruct (Js.eqb x (str "..")); [|apply IH].
    destruct acc as [|y acc].
    + destruct f; apply IH.
    + destruct (Js.eqb y (str "..")); apply IH.
Qed.

Lemma normalize_segs_names names : forall acc,
  Forall segment names ->
  Path.normalize_segs false acc names = rev acc ++ names.
Proof.
  induction names as [|x names IH]; intros acc H; cbn [Path.normalize_segs].
  - now rewrite app_nil_r.
  - inversion H as [|? ? (H0 & H1 & H2 & _) Hnames]; subst.
    apply eqb_neq in H0, H1, H2. rewrite H0, H1, H2. cbn [orb].
    rewrite IH by assumption. cbn [rev]. now rewrite <- app_assoc.
Qed.

Lemma normalize_segs_slash f acc xs :
  Path.normalize_segs f acc (xs ++ [[]]) = Path.normalize_segs f acc xs.
Proof.
  rewrite normalize_segs_app. cbn [Path.normalize_segs Js.eqb orb].
  apply rev_involutive.
Qed.

(** The segments of an absolute path. *)
Lemma resolve_segs_one p :
  Path.isAbsolute p = true ->
  fst (Path.resolve_segs cwd [p]) =
  Path.normalize_segs false [] (split Path.sep p).
Proof.
  intros Hp. unfold Path.resolve_segs. cbn [rev app Path.resolve_acc].
  destruct p as [|c p]; [discriminate|]. cbn [Path.isAbsolute] in Hp.
  rewrite Hp. cbn [negb fst].
  change ((c :: p) ++ str "/" ++ []) with ((c :: p) ++ ch "/" :: []).
  rewrite split_sep_app. apply normalize_segs_slash.
Qed.

(** The segments of a relative path, resolved in an absolute directory. *)
Lemma resolve_segs_in dir p :
  Path.isAbsolute dir = true ->
  p <> [] -> Path.isAbsolute p = false ->
  Path.resolve_segs cwd [dir; p] =
  (Path.normalize_segs false [] (split Path.sep dir ++ split Path.sep p), true).
Proof.
  intros Hd Hne Hp. unfold Path.resolve_segs. cbn [rev app Path.resolve_acc].
  destruct p as [|c p]; [contradiction|]. cbn [Path.isAbsolute] in Hp.
  rewrite Hp. destruct dir as [|d dir]; [discriminate|].
  cbn [Path.isAbsolute] in Hd. rewrite Hd. cbn [negb].
  change ((d :: dir) ++ str "/" ++ (c :: p) ++ str "/" ++ [])
    with ((d :: dir) ++ ch "/" :: ((c :: p) ++ ch "/" :: [])).
  rewrite !split_sep_app, app_assoc. now rewrite normalize_segs_slash.
Qed.

(** A resolved absolute path resolves to its own segments. *)
Lemma resolve_segs_resolved segs :
  Forall segment segs ->
  fst (Path.resolve_segs cwd [str "/" ++ join Path.sep segs]) = segs.
Proof.
  intros H. rewrite resolve_segs_one by reflexivity.
  change (str "/" ++ join Path.sep segs) with ([] ++ ch "/" :: join Path.sep segs).
  rewrite split_sep_app. cbn [split split_go app Path.normalize_segs Js.eqb orb].
  destruct segs as [|x segs]; [reflexivity|].
  rewrite split_sep_join by (discriminate || assumption).
  now rewrite normalize_segs_names.
Qed.

Lemma strip_common_prefix a : forall b,
  Path.strip_common a (a ++ b) = ([], b).
Proof.
  induction a as [|x a IH]; intros b; [now destruct b|].
  cbn [app Path.strip_common]. now rewrite eqb_refl.
Qed.

(** A path whose segments go on from those of [rootDir] passes the check. *)
Lemma check_rootDir_below root segs below :
  Path.isAbsolute root = true ->
  fst (Path.resolve_segs cwd [root]) ++ below = segs ->
  Forall segment segs ->
  check_rootDir false cwd root (str "/" ++ join Path.sep segs)
  = Ok (str "/" ++ join Path.sep segs).
Proof.
  intros Hroot Hsegs Hall. unfold check_rootDir. cbn [negb andb].
  rewrite (outside_rootDir_segments cwd root (str "/" ++ join Path.sep segs)
             [] below Hroot eq_refl); [reflexivity|].
  rewrite resolve_segs_resolved by assumption. rewrite <- Hsegs.
  apply strip_common_prefix.
Qed.

Lemma join_names_relative names :
  names <> [] -> Forall segment names ->
  join Path.sep names <> [] /\ Path.isAbsolute (join Path.sep names) = false.
Proof.
  intros Hne H. destruct names as [|x names]; [contradiction|].
  inversion H as [|? ? (Hx & _ & _ & Hs) _]; subst.
  destruct x as [|c x]; [contradiction|].
  assert (Hc : N.eqb c (ch "/") = false).
  { apply N.eqb_neq. intros ->. apply Hs. now left. }
  destruct names as [|y names]; cbn [join app Path.isAbsolute];
    (split; [discriminate|exact Hc]).
Qed.

Lemma unescape_spaces_plain s :
  ~ In (ch "\") s -> unescape_spaces s = s.
Proof.
  induction s as [|c s IH]; intros H; [reflexivity|].
  assert (Hc : N.eqb c (ch "\") = false).
  { apply N.eqb_neq. intros ->. apply H. now left. }
  cbn [unescape_spaces]. destruct s as [|d s]; [reflexivity|].
  rewrite Hc. cbn [andb]. rewrite IH; [reflexivity|].
  intros Hin. apply H. now right.
Qed.

End Below.

(** X13: a document in or below the root directory may import what lies
    in or below its own directory: a path of plain names, resolved in the
    directory of the document, passes the check, and is the directory
    followed by these names. *)
Theorem import_below_document (cwd root dir : jsstring)
    (below names : list jsstring) :
  Path.isAbsolute root = true -> Path.isAbsolute dir = true ->
  fst (Path.resolve_segs cwd [dir]) = fst (Path.resolve_segs cwd [root]) ++ below ->
  names <> [] -> Forall segment names ->
  check_rootDir false cwd root (Path.resolve cwd [dir; join Path.sep names])
  = Ok (str "/" ++ join Path.sep (fst (Path.resolve_segs cwd [dir]) ++ names)).
Proof.
  intros Hroot Hdir Hbelow Hne Hnames.
  destruct (join_names_relative names Hne Hnames) as [Hj Hrel].
  assert (Hsegs : Path.resolve_segs cwd [dir; join Path.sep names]
                  = (fst (Path.resolve_segs cwd [dir]) ++ names, true)).
  { rewrite resolve_segs_in by assumption.
    rewrite split_sep_join by assumption.
    rewrite normalize_segs_app, normalize_segs_names by assumption.
    rewrite rev_involutive. now rewrite resolve_segs_one. }
  unfold Path.resolve. rewrite Hsegs.
  apply (check_rootDir_below cwd root _ (below ++ names) Hroot).
  - rewrite Hbelow. now rewrite app_assoc.
  - apply Forall_app. split; [|assumption].
    now apply resolve_segs_absolute.
Qed.

Lemma import_below_document_witness :
  check_rootDir false (str "/x") (str "/repo") 
    (Path.resolve (str "/x") [str "/repo/docs/"; join Path.sep [str "src"; str "a.js"]])
  = Ok (str "/" ++ join Path.sep
          (fst (Path.resolve_segs (str "/x") [str "/repo/docs/"])
             ++ [str "src"; str "a.js"])).
Proof.
  apply (import_below_document (str "/x") (str "/repo") (str "/repo/docs/")
           [str "docs"]); try reflexivity.
  - discriminate.
  - repeat constructor; vm_compute; intuition discriminate.
Defined.

(** X14: whatever the directory of the document, a path of plain names
    under the placeholder [<rootDir>] passes the check and is the root
    directory followed by these names; the root directory and the names
    are free of [$] and of backslashes. *)
Theorem import_below_rootDir (cwd root dir : jsstring) (names : list jsstring) :
  Path.isAbsolute root = true ->
  ~ In (ch "$") root -> ~ In (ch "\") root ->
  names <> [] -> Forall segment names -> ~ In (ch "\") (join Path.sep names) ->
  let filePath := str "<rootDir>" ++ str "/" ++ join Path.sep names in
  check_rootDir false cwd root
    (Path.resolve cwd [dir; unescape_spaces (replace_rootDir filePath root)])
  = Ok (str "/" ++ join Path.sep (fst (Path.resolve_segs cwd [root]) ++ names)).
Proof.
  intros Hroot Hdollar Hback Hne Hnames Hbackn filePath. subst filePath.
  rewrite replace_rootDir_plain by exact Hdollar.
  rewrite unescape_spaces_plain.
  2:{ intros Hin. apply in_app_or in Hin as [Hin|Hin]; [now apply Hback|].
      destruct Hin as [Hin|Hin]; [discriminate|now apply Hbackn]. }
  unfold Path.resolve.
  match goal with
  | |- context [Path.resolve_segs cwd ?args] =>
      assert (Hsegs : Path.resolve_segs cwd args
                      = (fst (Path.resolve_segs cwd [root]) ++ names, true))
  end.
  { unfold Path.resolve_segs at 1. cbn [rev app Path.resolve_acc].
    destruct root as [|c root]; [discriminate|]. cbn [Path.isAbsolute] in Hroot.
    cbn [app]. rewrite Hroot. cbn [negb]. f_equal.
    change (c :: (root ++ str "/" ++ join Path.sep names) ++ str "/" ++ [])
      with (((c :: root) ++ ch "/" :: join Path.sep names) ++ ch "/" :: []).
    rewrite split_sep_app, normalize_segs_slash, split_sep_app.
    rewrite split_sep_join by assumption.
    rewrite normalize_segs_app, normalize_segs_names by assumption.
    rewrite rev_involutive. now rewrite (resolve_segs_one cwd (c :: root)). }
  rewrite Hsegs.
  apply (check_rootDir_below cwd root _ names Hroot); [reflexivity|].
  apply Forall_app. split; [|assumption]. now apply resolve_segs_absolute.
Qed.

Lemma import_below_rootDir_witness :
  check_rootDir false (str "/x") (str "/repo")
    (Path.resolve (str "/x")
       [str "/elsewhere";
        unescape_spaces
          (replace_rootDir
             (str "<rootDir>" ++ str "/" ++ join Path.sep [str "src"; str "a.js"])
             (str "/repo"))])
  = Ok (str "/" ++ join Path.sep
          (fst (Path.resolve_segs (str "/x") [str "/repo"]) ++ [str "src"; str "a.js"])).
Proof.
  apply (import_below_rootDir (str "/x") (str "/repo") (str "/elsewhere")
           [str "src"; str "a.js"]);
    try reflexivity; try discriminate;
    try (vm_compute; intuition discriminate).
  repeat constructor; vm_compute; intuition discriminate.
Defined.

(** ** The annotations the parser accepts *)

Lemma tail_groups_some_any t g g' g1 :
  tail_groups t g = Some g1 -> exists g2, tail_groups t g' = Some g2.
Proof.
  intros H. apply tail_groups_inv in H as (sp & Hwf & -> & _).
  eexists. now apply tail_groups_intro.
Qed.

(** The path that the lazy group settles on, with the fact that no
    shorter path leaves a tail that the pattern accepts. *)
Lemma path_groups_shortest_inv s : forall acc g,
  path_groups acc s = Some g ->
  exists p t, s = p ++ t /\ p <> [] /\ forallb is_dot p = true /\
    tail_groups t (set_group Gpath (acc ++ p) no_groups) = Some g /\
    (forall p1 p2 g', p = p1 ++ p2 -> p1 <> [] -> p2 <> [] ->
       tail_groups (p2 ++ t) g' = None).
Proof.
  induction s as [|c s IH]; intros acc g H; cbn [path_groups] in H;
    [discriminate|].
  destruct (is_dot c) eqn:Ec; [|discriminate].
  destruct (tail_groups s _) eqn:Et.
  - inversion H; subst. exists [c], s. cbn [forallb]. rewrite Ec.
    repeat split; auto; try discriminate.
    intros p1 p2 g' Hp Hp1 Hp2. destruct p1 as [|x [|y p1]];
      [contradiction| |discriminate Hp].
    inversion Hp; subst. contradiction.
  - apply IH in H as (p & t & -> & Hp & Hd & Ht & Hmin).
    exists (c :: p), t. cbn [forallb]. rewrite Ec, Hd.
    rewrite <- app_assoc in Ht. repeat split; auto; try discriminate.
    intros p1 p2 g' Hsplit Hp1 Hp2.
    destruct p1 as [|x p1]; [contradiction|]. inversion Hsplit; subst.
    destruct p1 as [|y p1].
    + cbn [app]. destruct (tail_groups (p2 ++ t) g') as [g2|] eqn:E;
        [|reflexivity].
      destruct (tail_groups_some_any _ _
                  (set_group Gpath (acc ++ [x]) no_groups) _ E) as [g3 Hg3].
      cbn [app] in Et. congruence.
    + apply (Hmin (y :: p1) p2 g'); [reflexivity|discriminate|assumption].
Qed.

(** X15: the annotations that the parser accepts, and what it makes of
    them: an annotation parses to a reference exactly when it is [file=],
    a non-empty path without line terminators and one of the six tails,
    and the reference is that of the path and the tail; when the tail is
    empty, the path does not itself end with a line section, so that the
    path and the tail of an accepted annotation are determined. *)
Theorem parse_reference_grammar (m : jsstring) (ref : reference) :
  parse_reference m = Ok ref <->
  exists p sp,
    m = str "file=" ++ p ++ spec_tail sp /\ p <> [] /\
    forallb is_dot p = true /\ spec_wf sp /\
    (sp = NoSection -> ~ has_section p) /\
    ref = spec_reference p sp.
Proof.
  split.
  - intros H.
    destruct (fileMeta_groups m) as [g|] eqn:E.
    2:{ unfold parse_reference in H. rewrite exec_fileMeta, E in H.
        discriminate. }
    pose proof E as E'. unfold fileMeta_groups in E'.
    destruct (startsWith m (str "file=")) eqn:Es; [|discriminate].
    apply startsWith_inv in Es.
    apply path_groups_shortest_inv in E' as (p & t & Hs & Hp & Hd & Ht & Hmin).
    apply tail_groups_inv in Ht as (sp & Hwf & -> & ->).
    exists p, sp. cbn [app] in E.
    rewrite (parse_reference_groups m p sp Hp Hwf E) in H. inversion H.
    repeat split; auto.
    + rewrite Es at 1. now rewrite Hs.
    + intros -> (q & sp' & Hq & Hwf' & Hsp' & ->).
      assert (Hne : spec_tail sp' <> []) by (destruct sp'; try discriminate; contradiction).
      specialize (Hmin q (spec_tail sp') no_groups eq_refl Hq Hne).
      cbn [spec_tail] in Hmin. rewrite app_nil_r in Hmin.
      rewrite tail_groups_intro in Hmin by assumption. discriminate.
  - intros (p & sp & -> & Hp & Hd & Hwf & Hno & ->).
    now apply parse_reference_intro.
Qed.

Lemma parse_reference_grammar_witness :
  exists p sp,
    str "file=a#L1#L2-" = str "file=" ++ p ++ spec_tail sp /\ p <> [] /\
    forallb is_dot p = true /\ spec_wf sp /\
    (sp = NoSection -> ~ has_section p) /\
    mkReference (str "a#L1") (Some 2%Z) true None = spec_reference p sp.
Proof.
  apply (proj1 (parse_reference_grammar (str "file=a#L1#L2-")
                  (mkReference (str "a#L1") (Some 2%Z) true None))).
  vm_compute. reflexivity.
Defined.

(** ** Read failures *)

Lemma parse_reference_throw m e :
  parse_reference m = Throw e -> e = UnableToParse m.
Proof.
  unfold parse_reference. destruct (exec fileMeta_re m) as [g|];
    [|now inversion 1].
  destruct (g_path g) as [[|c q]|]; now inversion 1.
Qed.

Lemma prepare_not_read options w node a :
  prepare options w node <> Throw (ReadFileFailed a).
Proof.
  unfold prepare.
  destruct (find_fileMeta (meta node)) as [m|]; [|discriminate].
  destruct (truthy_str (dirname w)); cbn [negb]; [|discriminate].
  destruct (parse_reference m) as [ref|e] eqn:Ep; cbn [bind].
  - unfold check_rootDir. destruct (negb _ && _); cbn [bind]; discriminate.
  - apply parse_reference_throw in Ep. subst e. discriminate.
Qed.

(** X16: the failure of a read is reported only when every annotation of
    the document has been parsed and let through by the check, whatever
    the order of the blocks; the path it names is that of an import of
    the document, and cannot be read. *)
Theorem transformer_read_failure (options : CodeImportOptions) (w : world)
    (codes : list Code) (a : jsstring) :
  transformer options w codes = Throw (ReadFileFailed a) ->
  Forall (fun node => exists i, prepare options w node = Ok i) codes /\
  (exists node imp,
     In node codes /\ prepare options w node = Ok (Some imp) /\
     fileAbsPath imp = a /\ readFile w a = None).
Proof.
  induction codes as [|node rest IH]; intros H; [discriminate|].
  assert (Hall : exists i jobs, prepare options w node = Ok i /\
                                prepare_all options w rest = Ok jobs).
  { unfold transformer in H. cbn [prepare_all] in H.
    destruct (prepare options w node) as [i|e] eqn:Ep; cbn [bind] in H.
    2:{ inversion H; subst. now apply prepare_not_read in Ep. }
    destruct (prepare_all options w rest) as [jobs|e] eqn:Ea; cbn [bind] in H;
      [eauto|].
    exfalso. inversion H; subst. clear -Ea. revert Ea.
    induction rest as [|n r IHr]; cbn [prepare_all]; [discriminate|].
    destruct (prepare options w n) as [i|e] eqn:Ep; cbn [bind].
    - destruct (prepare_all options w r); cbn [bind]; [discriminate|].
      intros E. inversion E; subst. now apply IHr.
    - intros E. inversion E; subst. now apply prepare_not_read in Ep. }
  destruct Hall as (i & jobs & Hp & Ha).
  apply transformer_cons_throw in H as [H|[(imp & Hp' & Hr)|H]].
  - congruence.
  - assert (Hrest : Forall (fun n => exists i, prepare options w n = Ok i) rest).
    { clear -Ha. revert jobs Ha. induction rest as [|n r IHr]; intros jobs Ha;
        [constructor|].
      cbn [prepare_all] in Ha.
      destruct (prepare options w n) as [i|] eqn:Ep; [|discriminate].
      cbn [bind] in Ha.
      destruct (prepare_all options w r) as [js|] eqn:Er; [|discriminate].
      constructor; eauto. }
    split; [constructor; eauto|].
    unfold run in Hr. destruct (readFile w (fileAbsPath imp)) eqn:E;
      [discriminate|]. inversion Hr; subst.
    exists node, imp. repeat split; auto. now left.
  - destruct (IH H) as (Hrest & n & imp & Hin & Hn & Hpath & Hread).
    split; [constructor; eauto|].
    exists n, imp. repeat split; auto. now right.
Qed.

Lemma transformer_read_failure_witness :
  let w := one_file (str "/r") (str "/r/f.js") (text ["x"]) in
  let codes := [block "file=g.js"; block "file=f.js"] in
  Forall (fun node => exists i, prepare default_options w node = Ok i) codes /\
  (exists node imp,
     In node codes /\ prepare default_options w node = Ok (Some imp) /\
     fileAbsPath imp = str "/r/g.js" /\ readFile w (str "/r/g.js") = None).
Proof.
  intros w codes. apply transformer_read_failure. vm_compute. reflexivity.
Defined.
